(** * LinkedList.c: a doubly-linked list of C strings

    A shallow embedding of [CMPE13_Lab5.X/LinkedList.c] and the properties
    of its operations.  The C heap is a finite map from addresses to
    [ListItem] structs, strings live in a second, read-only map, and
    [stdout] is the text printed so far.  Every function of the C file is
    a computation in a state-and-error monad: dereferencing [NULL] or an
    address that holds no object is a [Fault], and the loops that follow
    links take a step budget. *)

From Stdlib Require Import ZArith String Ascii Lia.
From stdpp Require Import base tactics option list sorting gmap strings.

#[local] Set Warnings "-clear-no-such-hyp".

Local Open Scope Z_scope.

(** ** Memory *)

Abbreviation ptr := Z (only parsing).

Definition NULL : Z := 0.

(** Modelled from the spec: [LinkedList.h], which declares the struct, is
    not part of the sources.  A node has a reference to its payload and
    the two links; the fields have the names the code uses. *)
Record ListItem := mkListItem {
  previousItem : ptr;
  nextItem : ptr;
  data : ptr
}.

(** Modelled from the spec: [BOARD.h], which defines the return codes
    [SUCCESS] and [STANDARD_ERROR], is not part of the sources; the spec
    says that success and the failure code are distinct values. *)
Inductive status := SUCCESS | STANDARD_ERROR.

(** [strings] maps the address of a string to its characters before the
    terminating NUL. *)
Record state := mkState {
  items : gmap Z ListItem;
  strings : gmap Z string;
  stdout : string
}.

Definition with_items (f : gmap Z ListItem → gmap Z ListItem) (s : state) : state :=
  mkState (f (items s)) (strings s) (stdout s).

Inductive result (A : Type) :=
  | Ok (a : A) (s : state)
  | Fault
  | OutOfFuel.
Arguments Ok {A} a s.
Arguments Fault {A}.
Arguments OutOfFuel {A}.

Definition M (A : Type) : Type := state → result A.

Definition ret {A} (a : A) : M A := λ s, Ok a s.

Definition bind {A B} (m : M A) (k : A → M B) : M B := λ s,
  match m s with
  | Ok a s' => k a s'
  | Fault => Fault
  | OutOfFuel => OutOfFuel
  end.

Declare Scope c_scope.
Delimit Scope c_scope with C.
Notation "'let*' x ':=' m 'in' k" := (bind m (λ x, k))
  (at level 10, x name, m at level 100, k at level 200) : c_scope.
Notation "m ';;' k" := (bind m (λ _, k))
  (at level 100, k at level 200, right associativity) : c_scope.
Local Open Scope c_scope.

Definition fault {A} : M A := λ _, Fault.
Definition timeout {A} : M A := λ _, OutOfFuel.

(** *** Objects in memory *)

Definition load (p : ptr) : M ListItem := λ s,
  if p =? NULL then Fault
  else match items s !! p with
       | Some it => Ok it s
       | None => Fault
       end.

Definition store (p : ptr) (it : ListItem) : M unit := λ s,
  Ok tt (with_items <[p := it]> s).

Definition get_previousItem (p : ptr) : M ptr := let* it := load p in ret (previousItem it).
Definition get_nextItem (p : ptr) : M ptr := let* it := load p in ret (nextItem it).
Definition get_data (p : ptr) : M ptr := let* it := load p in ret (data it).

Definition with_data (it : ListItem) (v : ptr) : ListItem :=
  mkListItem (previousItem it) (nextItem it) v.

Definition set_previousItem (p v : ptr) : M unit :=
  let* it := load p in store p (mkListItem v (nextItem it) (data it)).
Definition set_nextItem (p v : ptr) : M unit :=
  let* it := load p in store p (mkListItem (previousItem it) v (data it)).
Definition set_data (p v : ptr) : M unit :=
  let* it := load p in store p (with_data it v).

(** [malloc(sizeof (ListItem))]: what the allocator does is an input.
    [None] is a failed allocation; [Some (p, g)] is a block at address [p]
    whose bytes, read as a [ListItem], are [g]: malloc does not clear the
    block. *)
Definition malloc (m : option (ptr * ListItem)) : M ptr := λ s,
  match m with
  | None => Ok NULL s
  | Some (p, g) => Ok p (with_items <[p := g]> s)
  end.

Definition free (p : ptr) : M unit := λ s,
  if p =? NULL then Ok tt s
  else match items s !! p with
       | Some _ => Ok tt (with_items (delete p) s)
       | None => Fault
       end.

(** *** <string.h> and <stdio.h> *)

Definition load_string (p : ptr) : M string := λ s,
  if p =? NULL then Fault
  else match strings s !! p with
       | Some str => Ok str s
       | None => Fault
       end.

Definition byte (c : ascii) : Z := Z.of_N (N_of_ascii c).

(** The difference of the first two bytes that differ, read as
    [unsigned char]; the end of a string is its NUL byte. *)
Fixpoint compare_bytes (a b : string) : Z :=
  match a, b with
  | EmptyString, EmptyString => 0
  | EmptyString, String d _ => 0 - byte d
  | String c _, EmptyString => byte c
  | String c a', String d b' =>
      if byte c =? byte d then compare_bytes a' b' else byte c - byte d
  end.

Definition strlen (p : ptr) : M Z :=
  let* str := load_string p in ret (Z.of_nat (String.length str)).

Definition strcmp (p q : ptr) : M Z :=
  let* a := load_string p in
  let* b := load_string q in
  ret (compare_bytes a b).

Definition printf (text : string) : M unit := λ s,
  Ok tt (mkState (items s) (strings s) (stdout s ++ text)).

(** [printf("-%s-", p)] *)
Definition printf_dash_s (p : ptr) : M unit :=
  let* str := load_string p in printf ("-" ++ str ++ "-").

Definition newline : string := String (ascii_of_nat 10) EmptyString.

(** ** The functions of LinkedList.c *)

Definition LinkedListNew (m : option (ptr * ListItem)) (data : ptr) : M ptr :=
  let* temp := malloc m in
  set_data temp data;;
  if temp =? NULL then ret NULL
  else ret temp.

Definition LinkedListRemove (item : ptr) : M ptr :=
  let temp := item in
  let* data := get_data temp in
  if temp =? NULL then ret NULL
  else
    let* n := get_nextItem temp in
    let* both :=
      (if n =? NULL then let* p := get_previousItem temp in ret (p =? NULL)
       else ret false) in
    (if both then free temp
     else
       let* n := get_nextItem temp in
       if n =? NULL then
         let* p := get_previousItem temp in
         set_nextItem p NULL;;
         free temp
       else
         let* p := get_previousItem temp in
         if p =? NULL then
           let* n := get_nextItem temp in
           set_previousItem n NULL;;
           free temp
         else
           let* n := get_nextItem temp in
           let* p := get_previousItem temp in
           set_previousItem n p;;
           let* p := get_previousItem temp in
           let* n := get_nextItem temp in
           set_nextItem p n;;
           free temp);;
    ret data.

(** [while (first->previousItem != NULL) first = first->previousItem;] *)
Fixpoint getfirst_loop (fuel : nat) (first : ptr) : M ptr :=
  match fuel with
  | O => timeout
  | S fuel' =>
      let* p := get_previousItem first in
      if p =? NULL then ret first
      else
        let* p := get_previousItem first in
        getfirst_loop fuel' p
  end.

Definition LinkedListGetFirst (fuel : nat) (list : ptr) : M ptr :=
  let first := list in
  getfirst_loop fuel first.

Definition INT_MAX : Z := 2147483647.

(** [while (temp != NULL) { count++; temp = temp->nextItem; }]; [count]
    is an [int], of 32 bits on the PIC32, and running it past [INT_MAX]
    is undefined. *)
Fixpoint size_loop (fuel : nat) (temp : ptr) (count : Z) : M Z :=
  match fuel with
  | O => timeout
  | S fuel' =>
      if temp =? NULL then ret count
      else if INT_MAX <=? count then fault
      else
        let* n := get_nextItem temp in
        size_loop fuel' n (count + 1)
  end.

Definition LinkedListSize (fuel : nat) (list : ptr) : M Z :=
  let* temp := LinkedListGetFirst fuel list in
  size_loop fuel temp 0.

Definition LinkedListCreateAfter (m : option (ptr * ListItem)) (item data : ptr) : M ptr :=
  let* new := LinkedListNew m data in
  if new =? NULL then ret NULL
  else
    let* n := get_nextItem item in
    (if n =? NULL then
       set_nextItem new NULL;;
       set_previousItem new item;;
       set_nextItem item new
     else
       set_previousItem new item;;
       let* n := get_nextItem item in
       set_nextItem new n;;
       let* n := get_nextItem item in
       set_previousItem n new;;
       set_nextItem item new);;
    ret new.

Definition LinkedListSwapData (firstItem secondItem : ptr) : M status :=
  if negb (firstItem =? NULL) || negb (secondItem =? NULL) then
    let temp := NULL in
    let* temp := get_data firstItem in
    let* d := get_data secondItem in
    set_data firstItem d;;
    set_data secondItem temp;;
    ret SUCCESS
  else ret STANDARD_ERROR.

(** The body of the inner loop of [LinkedListSort]; the result says
    whether the loop goes on ([true]) or was left by [break]. *)
Definition sort_compare (select cmp : ptr) : M bool :=
  let* sd := get_data select in
  if sd =? NULL then ret false
  else
    let* cd := get_data cmp in
    if cd =? NULL then
      LinkedListSwapData select cmp;; ret true
    else
      let* sd := get_data select in
      let* ls := strlen sd in
      let* cd := get_data cmp in
      let* lc := strlen cd in
      if ls >? lc then
        LinkedListSwapData select cmp;; ret true
      else
        let* sd := get_data select in
        let* ls := strlen sd in
        let* cd := get_data cmp in
        let* lc := strlen cd in
        if ls =? lc then
          let* cd := get_data cmp in
          let* sd := get_data select in
          let* c := strcmp cd sd in
          if c <? 0 then
            LinkedListSwapData select cmp;; ret true
          else ret true
        else ret true.

(** [for (cmp = select->nextItem; cmp != NULL; cmp = cmp->nextItem)] *)
Fixpoint sort_inner (fuel : nat) (select cmp : ptr) : M unit :=
  match fuel with
  | O => timeout
  | S fuel' =>
      if cmp =? NULL then ret tt
      else
        let* continue := sort_compare select cmp in
        if continue then
          let* n := get_nextItem cmp in
          sort_inner fuel' select n
        else ret tt
  end.

(** [for (select = list; select->nextItem != NULL; select = select->nextItem)]:
    [inner] is the budget of each inner loop. *)
Fixpoint sort_outer (inner fuel : nat) (select : ptr) : M unit :=
  match fuel with
  | O => timeout
  | S fuel' =>
      let* n := get_nextItem select in
      if n =? NULL then ret tt
      else
        let* cmp := get_nextItem select in
        sort_inner inner select cmp;;
        let* n := get_nextItem select in
        sort_outer inner fuel' n
  end.

Definition LinkedListSort (fuel : nat) (list : ptr) : M status :=
  if list =? NULL then ret STANDARD_ERROR
  else
    sort_outer fuel fuel list;;
    ret SUCCESS.

(** [while (list != NULL) { ... list = list->nextItem; }] *)
Fixpoint print_loop (fuel : nat) (list : ptr) : M unit :=
  match fuel with
  | O => timeout
  | S fuel' =>
      if list =? NULL then ret tt
      else
        let* d := get_data list in
        (if d =? NULL then printf "-(null)-"
         else
           let* d := get_data list in
           printf_dash_s d);;
        let* n := get_nextItem list in
        print_loop fuel' n
  end.

Definition LinkedListPrint (fuel : nat) (list : ptr) : M status :=
  if list =? NULL then ret STANDARD_ERROR
  else
    let* list := LinkedListGetFirst fuel list in
    printf "{";;
    print_loop fuel list;;
    printf ("}" ++ newline);;
    ret SUCCESS.

(** ** Chains *)

(** [dseg h prev l next]: the nodes at the addresses [l] are linked in
    this order in [h], the first one after [prev] and the last one before
    [next]. *)
Fixpoint dseg (h : gmap Z ListItem) (prev : Z) (l : list Z) (next : Z) : Prop :=
  match l with
  | [] => True
  | a :: l' =>
      a ≠ NULL
      ∧ match h !! a with
        | Some it => previousItem it = prev ∧ nextItem it = default next (head l')
        | None => False
        end
      ∧ dseg h a l' next
  end.

(** A chain: a whole list, from its head to its tail. *)
Definition chain (h : gmap Z ListItem) (l : list Z) : Prop :=
  NoDup l ∧ dseg h NULL l NULL.

(** The nodes [l] are linked by [nextItem] up to [NULL]. *)
Fixpoint lseg (h : gmap Z ListItem) (l : list Z) : Prop :=
  match l with
  | [] => True
  | a :: l' =>
      a ≠ NULL
      ∧ match h !! a with
        | Some it => nextItem it = default NULL (head l')
        | None => False
        end
      ∧ lseg h l'
  end.

#[global] Instance dseg_dec h prev l next : Decision (dseg h prev l next).
Proof.
  revert prev. induction l as [|a l IH]; intros prev; simpl; [apply _|].
  destruct (h !! a); apply _.
Defined.

#[global] Instance chain_dec h l : Decision (chain h l).
Proof. unfold chain. apply _. Defined.

Definition links (it : ListItem) : Z * Z := (previousItem it, nextItem it).

Definition data_at (h : gmap Z ListItem) (a : Z) : Z :=
  from_option data NULL (h !! a).

(** The [data] pointers of the nodes [l], in order. *)
Definition datas (h : gmap Z ListItem) (l : list Z) : list Z := data_at h <$> l.

(** ** Payloads and their order *)

(** What a [data] pointer stands for: nothing, or a string. *)
Definition payload_of (strs : gmap Z string) (d : Z) : option string :=
  if d =? NULL then None else strs !! d.

Definition valid_string (strs : gmap Z string) (d : Z) : Prop :=
  d = NULL ∨ is_Some (strs !! d).

#[global] Instance valid_string_dec strs d : Decision (valid_string strs d).
Proof. unfold valid_string. apply _. Defined.

Definition payloads (s : state) (l : list Z) : list (option string) :=
  payload_of (strings s) <$> datas (items s) l.

Definition len (p : option string) : Z :=
  from_option (λ str, Z.of_nat (String.length str)) 0 p.

Definition text (p : option string) : string := default EmptyString p.

(** Ascending by length, a missing payload having length 0, then by
    bytes among equal lengths. *)
Definition ascending (a b : option string) : Prop :=
  len a < len b ∨ (len a = len b ∧ compare_bytes (text a) (text b) ≤ 0).

(** The same order with a missing payload before every string, the
    empty one included. *)
Definition null_first (a b : option string) : Prop :=
  a = None ∨ (b ≠ None ∧ ascending a b).

(** The test of [LinkedListSort] for a payload [s] at [select]: does the
    payload [c] at [cmp] go before it? *)
Definition precedes (c s : option string) : bool :=
  match c with
  | None => true
  | Some _ =>
      (len s >? len c)
      || ((len s =? len c) && (compare_bytes (text c) (text s) <? 0))
  end.

(** ** The loops of LinkedListSort on sequences *)

Section passes.
Context {A : Type} (key : A → option string).

(** One inner loop: [sd] is at [select], [ds] follows it. *)
Fixpoint sort_pass (sd : A) (ds : list A) : A * list A :=
  match ds with
  | [] => (sd, [])
  | cd :: ds' =>
      match key sd with
      | None => (sd, ds)
      | Some _ =>
          if precedes (key cd) (key sd)
          then let '(m, r) := sort_pass cd ds' in (m, sd :: r)
          else let '(m, r) := sort_pass sd ds' in (m, cd :: r)
      end
  end.

(** The outer loop, once for each of the first [n] positions. *)
Fixpoint sort_passes (n : nat) (ds : list A) : list A :=
  match n, ds with
  | S n', d :: ds' => let '(m, r) := sort_pass d ds' in m :: sort_passes n' r
  | _, _ => ds
  end.

Definition sort_seq (ds : list A) : list A := sort_passes (length ds) ds.
End passes.

(** ** The text of LinkedListPrint *)

Definition render (p : option string) : string :=
  match p with
  | None => "-(null)-"
  | Some str => ("-" ++ str ++ "-")%string
  end.

(** The payloads [ps] one after the other, and then [rest]. *)
Definition rendered (ps : list (option string)) (rest : string) : string :=
  foldr (λ p acc, render p ++ acc)%string rest ps.

Definition listing (ps : list (option string)) : string :=
  ("{" ++ rendered ps ("}" ++ newline))%string.

(** ** What a sort may change *)

(** [s'] is [s] up to the [data] pointers of the nodes [L]: the same
    strings and output, the same nodes with the same links, and the same
    contents outside of [L]. *)
Definition relabels (L : list Z) (s s' : state) : Prop :=
  strings s' = strings s
  ∧ stdout s' = stdout s
  ∧ ∀ a, links <$> items s' !! a = links <$> items s !! a
         ∧ (a ∉ L → items s' !! a = items s !! a).

(** ** A concrete chain *)

(** The list of the header comment of [LinkedListSort],
    [dog, cat, duck, goat, NULL], in nodes at 16, 32, 48, 64 and 80. *)
Definition animals : state := mkState
  (list_to_map
     [(16, mkListItem NULL 32 1000);
      (32, mkListItem 16 48 1004);
      (48, mkListItem 32 64 1008);
      (64, mkListItem 48 80 1013);
      (80, mkListItem 64 NULL NULL)])
  (list_to_map
     [(1000, "dog"%string); (1004, "cat"%string);
      (1008, "duck"%string); (1013, "goat"%string)])
  EmptyString.

(** The same nodes after [LinkedListSort]:
    [NULL, cat, dog, duck, goat]. *)
Definition animals_sorted : state := mkState
  (list_to_map
     [(16, mkListItem NULL 32 NULL);
      (32, mkListItem 16 48 1004);
      (48, mkListItem 32 64 1000);
      (64, mkListItem 48 80 1008);
      (80, mkListItem 64 NULL 1013)])
  (strings animals)
  EmptyString.

(** An empty string before a [NULL]: nodes at 16 and 32. *)
Definition empty_then_null : state := mkState
  (list_to_map [(16, mkListItem NULL 32 1000); (32, mkListItem 16 NULL NULL)])
  (list_to_map [(1000, EmptyString)])
  EmptyString.

(** * Properties *)

(** ** Running the primitives *)

Lemma bind_Ok {A B} (m : M A) (k : A → M B) s a s' :
  m s = Ok a s' → bind m k s = k a s'.
Proof. unfold bind. by intros ->. Qed.

Lemma bind_inv {A B} (m : M A) (k : A → M B) s b s2 :
  bind m k s = Ok b s2 → ∃ a s1, m s = Ok a s1 ∧ k a s1 = Ok b s2.
Proof. unfold bind. destruct (m s) as [a s1| |]; [eauto|done|done]. Qed.

Lemma load_Ok p it s :
  p ≠ NULL → items s !! p = Some it → load p s = Ok it s.
Proof.
  intros Hp Hit. unfold load. rewrite Hit.
  by destruct (Z.eqb_spec p NULL).
Qed.

Section primitives.
Context (p : Z) (it : ListItem) (s : state).
Hypothesis Hp : p ≠ NULL.
Hypothesis Hit : items s !! p = Some it.

Lemma get_previousItem_Ok : get_previousItem p s = Ok (previousItem it) s.
Proof. unfold get_previousItem. by rewrite (bind_Ok _ _ _ _ _ (load_Ok _ _ _ Hp Hit)). Qed.

Lemma get_nextItem_Ok : get_nextItem p s = Ok (nextItem it) s.
Proof. unfold get_nextItem. by rewrite (bind_Ok _ _ _ _ _ (load_Ok _ _ _ Hp Hit)). Qed.

Lemma get_data_Ok : get_data p s = Ok (data it) s.
Proof. unfold get_data. by rewrite (bind_Ok _ _ _ _ _ (load_Ok _ _ _ Hp Hit)). Qed.

Lemma set_previousItem_Ok v :
  set_previousItem p v s
  = Ok tt (with_items <[p := mkListItem v (nextItem it) (data it)]> s).
Proof. unfold set_previousItem. by rewrite (bind_Ok _ _ _ _ _ (load_Ok _ _ _ Hp Hit)). Qed.

Lemma set_nextItem_Ok v :
  set_nextItem p v s
  = Ok tt (with_items <[p := mkListItem (previousItem it) v (data it)]> s).
Proof. unfold set_nextItem. by rewrite (bind_Ok _ _ _ _ _ (load_Ok _ _ _ Hp Hit)). Qed.

Lemma set_data_Ok v :
  set_data p v s
  = Ok tt (with_items <[p := with_data it v]> s).
Proof. unfold set_data. by rewrite (bind_Ok _ _ _ _ _ (load_Ok _ _ _ Hp Hit)). Qed.

Lemma free_Ok : free p s = Ok tt (with_items (delete p) s).
Proof. unfold free. rewrite Hit. by destruct (Z.eqb_spec p NULL). Qed.
End primitives.

Lemma eqb_NULL_false p : p ≠ NULL → (p =? NULL) = false.
Proof. intros. by apply Z.eqb_neq. Qed.

(** One step of a computation: run the first primitive with the facts at
    hand. *)
Ltac prim :=
  first
    [ eapply get_data_Ok | eapply get_nextItem_Ok | eapply get_previousItem_Ok
    | eapply set_data_Ok | eapply set_nextItem_Ok | eapply set_previousItem_Ok
    | eapply free_Ok ];
  [done || eassumption | by simplify_map_eq].

Ltac step := erewrite bind_Ok by prim; cbn beta.

Lemma bind_assoc {A B C} (m : M A) (f : A → M B) (k : B → M C) s :
  bind (bind m f) k s = bind m (λ a, bind (f a) k) s.
Proof. unfold bind. by destruct (m s). Qed.

Lemma bind_ret {A B} (a : A) (k : A → M B) s : bind (ret a) k s = k a s.
Proof. reflexivity. Qed.

(** Decide the tests on pointers that are known and go on to the next
    primitive. *)
Ltac branch :=
  repeat progress
    (cbn [previousItem nextItem data with_data default head id];
     rewrite ?Z.eqb_refl, ?eqb_NULL_false by done;
     rewrite ?bind_assoc, ?bind_ret).

Ltac steps := repeat (step; branch).

(** ** LinkedListSwapData *)

Lemma LinkedListSwapData_NULL s :
  LinkedListSwapData NULL NULL s = Ok STANDARD_ERROR s.
Proof. reflexivity. Qed.

Lemma LinkedListSwapData_Ok a b ia ib s :
  a ≠ NULL → b ≠ NULL → a ≠ b →
  items s !! a = Some ia → items s !! b = Some ib →
  LinkedListSwapData a b s
  = Ok SUCCESS
      (with_items (λ h, <[b := with_data ib (data ia)]> (<[a := with_data ia (data ib)]> h)) s).
Proof.
  intros Ha Hb Hab Hia Hib. unfold LinkedListSwapData.
  rewrite (eqb_NULL_false a), (eqb_NULL_false b) by done. cbn [negb orb].
  do 4 step. reflexivity.
Qed.

Lemma LinkedListSwapData_same a ia s :
  a ≠ NULL → items s !! a = Some ia →
  LinkedListSwapData a a s
  = Ok SUCCESS (with_items <[a := ia]> (with_items <[a := ia]> s)).
Proof.
  intros Ha Hia. unfold LinkedListSwapData.
  rewrite (eqb_NULL_false a) by done. cbn [negb orb].
  do 4 step. by destruct ia.
Qed.

Lemma LinkedListSwapData_status a b s r s' :
  LinkedListSwapData a b s = Ok r s' →
  if (a =? NULL) && (b =? NULL) then r = STANDARD_ERROR else r = SUCCESS.
Proof.
  unfold LinkedListSwapData.
  destruct (a =? NULL), (b =? NULL); cbn [negb orb andb];
    intros H; repeat (apply bind_inv in H as (? & ? & _ & H)); by injection H.
Qed.

Lemma LinkedListSwapData_one_NULL a b s :
  (a = NULL ∧ b ≠ NULL) ∨ (a ≠ NULL ∧ b = NULL) →
  LinkedListSwapData a b s = Fault.
Proof.
  intros [[-> Hb]|[Ha ->]]; unfold LinkedListSwapData.
  - rewrite (eqb_NULL_false b) by done. reflexivity.
  - rewrite (eqb_NULL_false a) by done. cbn [negb orb].
    unfold get_data, bind, load. rewrite (eqb_NULL_false a) by done.
    by destruct (items s !! a).
Qed.

(** C3. [LinkedListSwapData] returns [STANDARD_ERROR] exactly when both
    items are [NULL].  With exactly one [NULL] item it does not return the
    failure code: it goes into the exchange, which dereferences the
    [NULL] item.  With two items it exchanges their [data] pointers,
    whatever these are ([NULL] included), changes nothing else and
    returns [SUCCESS]. *)
Theorem LinkedListSwapData_contract (a b : Z) (s : state) :
  ((∃ s', LinkedListSwapData a b s = Ok STANDARD_ERROR s') ↔ a = NULL ∧ b = NULL)
  ∧ ((a = NULL ∧ b ≠ NULL) ∨ (a ≠ NULL ∧ b = NULL) →
     LinkedListSwapData a b s = Fault)
  ∧ (∀ ia ib,
       a ≠ NULL → b ≠ NULL →
       items s !! a = Some ia → items s !! b = Some ib →
       ∃ s', LinkedListSwapData a b s = Ok SUCCESS s'
         ∧ items s' !! a = Some (with_data ia (data ib))
         ∧ items s' !! b = Some (with_data ib (data ia))
         ∧ (∀ c, c ≠ a → c ≠ b → items s' !! c = items s !! c)
         ∧ strings s' = strings s ∧ stdout s' = stdout s).
Proof.
  split; [|split].
  - split.
    + intros [s' H]. apply LinkedListSwapData_status in H.
      destruct (Z.eqb_spec a NULL), (Z.eqb_spec b NULL); done.
    + intros [-> ->]. eexists. apply LinkedListSwapData_NULL.
  - apply LinkedListSwapData_one_NULL.
  - intros ia ib Ha Hb Hia Hib. destruct (decide (a = b)) as [<-|Hab].
    + assert (ib = ia) as -> by congruence.
      eexists. split; [by apply LinkedListSwapData_same|].
      cbn. repeat split; try by simplify_map_eq; destruct ia.
      intros c Hc _. by simplify_map_eq.
    + eexists. split; [by apply LinkedListSwapData_Ok|].
      cbn. repeat split; try by simplify_map_eq.
      intros c Hca Hcb. by simplify_map_eq.
Qed.

(** ** Chains *)

Lemma dseg_cons h p a l n :
  dseg h p (a :: l) n ↔
  a ≠ NULL
  ∧ (∃ d, h !! a = Some (mkListItem p (default n (head l)) d))
  ∧ dseg h a l n.
Proof.
  simpl. split.
  - intros (Ha & Hit & Hl). destruct (h !! a) as [[pv nx d]|]; [|done].
    simpl in Hit. destruct Hit as [-> ->]. eauto.
  - intros (Ha & [d ->] & Hl). done.
Qed.

Lemma dseg_app h p l1 l2 n :
  dseg h p (l1 ++ l2) n ↔
  dseg h p l1 (default n (head l2)) ∧ dseg h (default p (last l1)) l2 n.
Proof.
  revert p. induction l1 as [|a l1 IH]; intros p.
  - simpl. tauto.
  - rewrite <-app_comm_cons, !dseg_cons, IH.
    replace (default p (last (a :: l1))) with (default a (last l1))
      by (by destruct l1 using rev_ind; [|rewrite app_comm_cons, !last_snoc]).
    replace (default n (head (l1 ++ l2)))
      with (default (default n (head l2)) (head l1)) by (by destruct l1).
    tauto.
Qed.

Lemma dseg_node h p pre x post n :
  dseg h p (pre ++ x :: post) n →
  x ≠ NULL
  ∧ ∃ d, h !! x = Some (mkListItem (default p (last pre)) (default n (head post)) d).
Proof. rewrite dseg_app, dseg_cons. tauto. Qed.

Lemma dseg_frame h h' p l n :
  (∀ a, a ∈ l → links <$> h' !! a = links <$> h !! a) →
  dseg h p l n → dseg h' p l n.
Proof.
  revert p. induction l as [|a l IH]; intros p Hsame; [done|].
  simpl. intros (Ha & Hit & Hl). split; [done|]. split.
  - specialize (Hsame a (list_elem_of_here _ _)).
    destruct (h !! a) as [it|]; [|done]. destruct (h' !! a) as [it'|]; [|done].
    injection Hsame as Hp Hn. by rewrite Hp, Hn.
  - apply IH; [|done]. intros b Hb. apply Hsame. by apply list_elem_of_further.
Qed.

Lemma dseg_lseg h p l : dseg h p l NULL → lseg h l.
Proof.
  revert p. induction l as [|a l IH]; intros p; [done|].
  simpl. intros (Ha & Hit & Hl). split; [done|]. split; [|by eapply IH].
  destruct (h !! a); tauto.
Qed.

Lemma chain_node h pre x post :
  chain h (pre ++ x :: post) →
  x ≠ NULL
  ∧ ∃ d, h !! x = Some (mkListItem (default NULL (last pre)) (default NULL (head post)) d).
Proof. intros [_ H]. by apply dseg_node in H. Qed.

Lemma chain_lseg h pre l : chain h (pre ++ l) → NoDup l ∧ lseg h l.
Proof.
  intros [Hnd H]. apply NoDup_app in Hnd as (_ & _ & Hnd).
  apply dseg_app in H as [_ H]. split; [done|]. by eapply dseg_lseg.
Qed.

Lemma chain_before h pre P x post :
  chain h ((pre ++ [P]) ++ x :: post) →
  P ≠ NULL ∧ P ≠ x ∧ (P ∉ post)
  ∧ ∃ d, h !! P = Some (mkListItem (default NULL (last pre)) x d).
Proof.
  rewrite <-app_assoc. simpl. intros Hc.
  destruct (chain_node _ _ _ _ Hc) as [HP HiP]. destruct Hc as [Hnd _].
  apply NoDup_app in Hnd as (_ & _ & Hnd'). apply NoDup_cons in Hnd' as [HP' _].
  rewrite not_elem_of_cons in HP'. tauto.
Qed.

Lemma chain_after h pre x N post :
  chain h (pre ++ x :: N :: post) →
  N ≠ NULL ∧ N ≠ x ∧ (N ∉ pre)
  ∧ ∃ d, h !! N = Some (mkListItem x (default NULL (head post)) d).
Proof.
  intros Hc.
  assert (chain h ((pre ++ [x]) ++ N :: post)) as Hc'
    by (by rewrite <-app_assoc).
  destruct (chain_node _ _ _ _ Hc') as [HN HiN]. rewrite last_snoc in HiN.
  destruct Hc as [Hnd _].
  apply NoDup_app in Hnd as (_ & Hpre & Hnd'). apply NoDup_cons in Hnd' as [Hx _].
  rewrite not_elem_of_cons in Hx.
  repeat split; [done|naive_solver| |done].
  intros HNpre. apply (Hpre N HNpre). set_solver.
Qed.

Lemma chain_allocated h l a : chain h l → a ∈ l → a ≠ NULL ∧ is_Some (h !! a).
Proof.
  intros Hc Ha. apply list_elem_of_split in Ha as (pre & post & ->).
  destruct (chain_node _ _ _ _ Hc) as (? & ? & ->). eauto.
Qed.

Lemma dseg_set_next h h' p l n n' :
  NoDup l → dseg h p l n →
  (∀ a, a ∈ l → last l ≠ Some a → h' !! a = h !! a) →
  (∀ a it, last l = Some a → h !! a = Some it →
     h' !! a = Some (mkListItem (previousItem it) n' (data it))) →
  dseg h' p l n'.
Proof.
  revert p. induction l as [|a l IH]; intros p Hnd Hd Hsame Hlast; [done|].
  apply NoDup_cons in Hnd as [Ha Hnd].
  apply dseg_cons in Hd as (Han & [d Hit] & Hd). apply dseg_cons.
  split; [done|]. destruct l as [|b l].
  - split; [|done]. exists d. by rewrite (Hlast a _ eq_refl Hit).
  - split.
    + exists d. rewrite Hsame; [done|set_solver|].
      rewrite last_cons_cons. intros Hl. apply Ha. by eapply last_Some_elem_of.
    + apply IH; [done|done| |].
      * intros c Hc Hl. apply Hsame; [set_solver|]. by rewrite last_cons_cons.
      * intros c it Hl. apply Hlast. by rewrite last_cons_cons.
Qed.

Lemma dseg_set_prev h h' p p' l n :
  NoDup l → dseg h p l n →
  (∀ a, a ∈ l → head l ≠ Some a → h' !! a = h !! a) →
  (∀ a it, head l = Some a → h !! a = Some it →
     h' !! a = Some (mkListItem p' (nextItem it) (data it))) →
  dseg h' p' l n.
Proof.
  intros Hnd Hd Hsame Hhead. destruct l as [|a l]; [done|].
  apply NoDup_cons in Hnd as [Ha Hnd].
  apply dseg_cons in Hd as (Han & [d Hit] & Hd). apply dseg_cons.
  split; [done|]. split.
  - exists d. by rewrite (Hhead a _ eq_refl Hit).
  - eapply dseg_frame; [|done]. intros c Hc. rewrite Hsame; [done|set_solver|].
    intros [= ->]. done.
Qed.

(** A chain without one of its nodes, the neighbours linked to each
    other. *)
Lemma chain_remove h h' pre x post :
  chain h (pre ++ x :: post) →
  (∀ P itP, last pre = Some P → h !! P = Some itP →
     h' !! P = Some (mkListItem (previousItem itP) (default NULL (head post)) (data itP))) →
  (∀ N itN, head post = Some N → h !! N = Some itN →
     h' !! N = Some (mkListItem (default NULL (last pre)) (nextItem itN) (data itN))) →
  (∀ a, a ≠ x → last pre ≠ Some a → head post ≠ Some a → h' !! a = h !! a) →
  chain h' (pre ++ post).
Proof.
  intros [Hnd Hd] HP HN Hsame.
  apply NoDup_app in Hnd as (Hpre & Hdisj & [Hx Hpost]%NoDup_cons).
  apply dseg_app in Hd as [Hdpre Hdpost]. apply dseg_cons in Hdpost as (_ & _ & Hdpost).
  split.
  - apply NoDup_app. split; [done|]. split; [|done].
    intros a Ha Ha'. apply (Hdisj a Ha). set_solver.
  - apply dseg_app. split.
    + eapply dseg_set_next; [done|done| |done].
      intros a Ha Hl. apply Hsame; [|done|].
      * intros ->. apply (Hdisj x Ha). set_solver.
      * intros Hh. apply (Hdisj a Ha). apply head_Some_elem_of in Hh. set_solver.
    + eapply dseg_set_prev; [done|done| |done].
      intros a Ha Hh. apply Hsame; [|  |done].
      * intros ->. done.
      * intros Hl. apply last_Some_elem_of in Hl. apply (Hdisj a Hl). set_solver.
Qed.

(** A chain with a new node [B] after [A]. *)
Lemma chain_insert h h' pre A B post d :
  chain h (pre ++ A :: post) → B ≠ NULL → h !! B = None →
  h' !! B = Some (mkListItem A (default NULL (head post)) d) →
  (∀ itA, h !! A = Some itA →
     h' !! A = Some (mkListItem (previousItem itA) B (data itA))) →
  (∀ C itC, head post = Some C → h !! C = Some itC →
     h' !! C = Some (mkListItem B (nextItem itC) (data itC))) →
  (∀ c, c ≠ A → c ≠ B → head post ≠ Some c → h' !! c = h !! c) →
  chain h' (pre ++ A :: B :: post).
Proof.
  intros Hc HB HBfree HiB HiA HiC Hsame.
  assert (∀ a, a ∈ pre ++ A :: post → a ≠ B) as Hfresh.
  { intros a Ha ->. destruct (chain_allocated _ _ _ Hc Ha) as [_ [? ?]]. congruence. }
  destruct Hc as [Hnd Hd].
  replace (pre ++ A :: B :: post) with ((pre ++ [A]) ++ B :: post)
    by (by rewrite <-app_assoc).
  replace (pre ++ A :: post) with ((pre ++ [A]) ++ post) in Hnd, Hd, Hfresh
    by (by rewrite <-app_assoc).
  pose proof Hnd as (HpreA & Hdisj & Hpost)%NoDup_app.
  apply dseg_app in Hd as [HdpreA Hdpost]. rewrite last_snoc in Hdpost.
  split.
  - apply NoDup_app. split; [done|]. split.
    + intros a Ha [->|Ha']%elem_of_cons; [|by apply (Hdisj a)].
      apply (Hfresh B); [|done]. set_solver.
    + apply NoDup_cons. split; [|done]. intros HB'. apply (Hfresh B); [|done].
      set_solver.
  - apply dseg_app. rewrite last_snoc. split.
    + eapply (dseg_set_next h h' _ _ _ B); [done|done| |].
      * intros a Ha Hl. rewrite last_snoc in Hl. apply Hsame.
        -- congruence.
        -- apply Hfresh. set_solver.
        -- intros Hh. apply head_Some_elem_of in Hh. by apply (Hdisj a).
      * intros a it. rewrite last_snoc. intros [= <-]. apply HiA.
    + apply dseg_cons. split; [done|]. split; [by exists d|].
      eapply dseg_set_prev; [done|done| |done].
      intros a Ha Hh. apply Hsame; [| |done].
      * intros ->. apply (Hdisj A); [set_solver|done].
      * apply Hfresh. set_solver.
Qed.

(** ** LinkedListNew *)

Lemma LinkedListNew_Ok p g d s :
  p ≠ NULL →
  LinkedListNew (Some (p, g)) d s
  = Ok p (with_items <[p := with_data g d]> (with_items <[p := g]> s)).
Proof.
  intros Hp. unfold LinkedListNew.
  rewrite (bind_Ok _ _ _ _ _ (eq_refl : malloc (Some (p, g)) s = Ok p _)).
  step. by branch.
Qed.

Lemma LinkedListNew_no_memory d s : LinkedListNew None d s = Fault.
Proof. reflexivity. Qed.

(** C4. [LinkedListNew] does not always return [NULL] or a node
    without links.  When malloc fails it stores [data] through the
    [NULL] pointer before its test, and when malloc succeeds it leaves
    the two links as they were in the block: here the block holds 16 and
    32, and so does the node that is returned. *)
Theorem LinkedListNew_links_left_as_found :
  LinkedListNew None 1000 animals = Fault
  ∧ ∃ s', LinkedListNew (Some (96, mkListItem 16 32 0)) 1000 animals = Ok 96 s'
      ∧ items s' !! 96 = Some (mkListItem 16 32 1000).
Proof.
  split; [apply LinkedListNew_no_memory|].
  eexists. split; [by apply LinkedListNew_Ok|].
  cbn. by simplify_map_eq.
Qed.

(** ** NULL arguments *)

Lemma LinkedListCreateAfter_NULL m d s :
  LinkedListCreateAfter m NULL d s = Fault.
Proof.
  unfold LinkedListCreateAfter. destruct m as [[p g]|]; [|reflexivity].
  destruct (decide (p = NULL)) as [->|Hp]; [reflexivity|].
  rewrite (bind_Ok _ _ _ _ _ (LinkedListNew_Ok _ _ _ _ Hp)). by branch.
Qed.

(** C2. Not every function returns its error value for a [NULL] item.
    [LinkedListRemove] reads [temp->data] before it tests [temp], and
    [LinkedListGetFirst] reads [first->previousItem] without a test, so
    they, and [LinkedListSize] and [LinkedListCreateAfter] with them,
    dereference [NULL].  [LinkedListSwapData], [LinkedListSort] and
    [LinkedListPrint] return [STANDARD_ERROR] and leave the state as it
    is. *)
Theorem NULL_item_dereferenced (s : state) (fuel : nat) (m : option (Z * ListItem)) (d : Z) :
  LinkedListRemove NULL s = Fault
  ∧ LinkedListGetFirst (S fuel) NULL s = Fault
  ∧ LinkedListSize (S fuel) NULL s = Fault
  ∧ LinkedListCreateAfter m NULL d s = Fault
  ∧ LinkedListSwapData NULL NULL s = Ok STANDARD_ERROR s
  ∧ LinkedListSort fuel NULL s = Ok STANDARD_ERROR s
  ∧ LinkedListPrint fuel NULL s = Ok STANDARD_ERROR s.
Proof.
  repeat split; try reflexivity. apply LinkedListCreateAfter_NULL.
Qed.

(** ** LinkedListRemove *)

Lemma LinkedListRemove_spec s pre x post :
  chain (items s) (pre ++ x :: post) →
  ∃ s', LinkedListRemove x s = Ok (data_at (items s) x) s'
    ∧ items s' !! x = None
    ∧ (∀ P itP, last pre = Some P → items s !! P = Some itP →
         items s' !! P
         = Some (mkListItem (previousItem itP) (default NULL (head post)) (data itP)))
    ∧ (∀ N itN, head post = Some N → items s !! N = Some itN →
         items s' !! N
         = Some (mkListItem (default NULL (last pre)) (nextItem itN) (data itN)))
    ∧ (∀ a, a ≠ x → last pre ≠ Some a → head post ≠ Some a →
         items s' !! a = items s !! a)
    ∧ strings s' = strings s ∧ stdout s' = stdout s.
Proof.
  intros Hc. destruct (chain_node _ _ _ _ Hc) as (Hx & d & Hix).
  unfold data_at. rewrite Hix. cbn [from_option data].
  unfold LinkedListRemove. branch. steps.
  destruct post as [|N post].
  - destruct (last pre) as [P|] eqn:HP.
    + apply last_Some in HP as [pre' ->].
      destruct (chain_before _ _ _ _ _ Hc) as (HPn & HPx & _ & dP & HiP).
      branch. steps.
      eexists. split; [reflexivity|]. cbn.
      repeat split; try by simplify_map_eq.
      * intros ? ? [= <-] ?. by simplify_map_eq.
      * intros a ? Ha _. assert (a ≠ P) by congruence. by simplify_map_eq.
    + branch. steps.
      eexists. split; [reflexivity|]. cbn.
      repeat split; try by simplify_map_eq.
      intros a ? _ _. by simplify_map_eq.
  - destruct (chain_after _ _ _ _ _ Hc) as (HNn & HNx & HNpre & dN & HiN).
    destruct (last pre) as [P|] eqn:HP.
    + apply last_Some in HP as [pre' ->].
      destruct (chain_before _ _ _ _ _ Hc) as (HPn & HPx & HPpost & dP & HiP).
      assert (P ≠ N) by set_solver.
      branch. steps.
      eexists. split; [reflexivity|]. cbn.
      repeat split; try by simplify_map_eq.
      * intros ? ? [= <-] ?. by simplify_map_eq.
      * intros ? ? [= <-] ?. by simplify_map_eq.
      * intros a ? Ha Ha'. assert (a ≠ P) by congruence.
        assert (a ≠ N) by congruence. by simplify_map_eq.
    + branch. steps.
      eexists. split; [reflexivity|]. cbn.
      repeat split; try by simplify_map_eq.
      * intros ? ? [= <-] ?. by simplify_map_eq.
      * intros a ? _ Ha'. assert (a ≠ N) by congruence. by simplify_map_eq.
Qed.

Lemma LinkedListRemove_chain s pre x post :
  chain (items s) (pre ++ x :: post) →
  ∃ s', LinkedListRemove x s = Ok (data_at (items s) x) s'
    ∧ items s' !! x = None
    ∧ chain (items s') (pre ++ post)
    ∧ (∀ P, last pre = Some P →
         nextItem <$> items s' !! P = Some (default NULL (head post)))
    ∧ (∀ N, head post = Some N →
         previousItem <$> items s' !! N = Some (default NULL (last pre))).
Proof.
  intros Hc.
  destruct (LinkedListRemove_spec _ _ _ _ Hc) as (s' & Hrun & Hx & HP & HN & Hsame & _).
  exists s'. split; [done|]. split; [done|]. split; [by eapply chain_remove|].
  split.
  - intros P Hl. pose proof Hl as [pre' ->]%last_Some.
    destruct (chain_before _ _ _ _ _ Hc) as (_ & _ & _ & dP & HiP).
    by rewrite (HP P _ Hl HiP).
  - intros N Hh. pose proof Hh as [post' ->]%head_Some.
    destruct (chain_after _ _ _ _ _ Hc) as (_ & _ & _ & dN & HiN).
    by rewrite (HN N _ Hh HiN).
Qed.

(** C6. [LinkedListRemove] on a node of a chain returns the [data]
    pointer the node held and frees the node; what is left is a chain.
    Between two neighbours [P] and [N] it links them to each other; at
    the head the next node, and at the tail the previous node, gets
    [NULL] where it pointed to the removed node; a node alone is only
    freed. *)
Theorem LinkedListRemove_relinks (s : state) (x : Z) (it : ListItem) :
  items s !! x = Some it →
  (∀ pre P N post,
     chain (items s) (pre ++ P :: x :: N :: post) →
     ∃ s', LinkedListRemove x s = Ok (data it) s'
       ∧ items s' !! x = None
       ∧ nextItem <$> items s' !! P = Some N
       ∧ previousItem <$> items s' !! N = Some P
       ∧ chain (items s') (pre ++ P :: N :: post))
  ∧ (∀ N post,
       chain (items s) (x :: N :: post) →
       ∃ s', LinkedListRemove x s = Ok (data it) s'
         ∧ items s' !! x = None
         ∧ previousItem <$> items s' !! N = Some NULL
         ∧ chain (items s') (N :: post))
  ∧ (∀ pre P,
       chain (items s) (pre ++ [P; x]) →
       ∃ s', LinkedListRemove x s = Ok (data it) s'
         ∧ items s' !! x = None
         ∧ nextItem <$> items s' !! P = Some NULL
         ∧ chain (items s') (pre ++ [P]))
  ∧ (chain (items s) [x] →
     ∃ s', LinkedListRemove x s = Ok (data it) s'
       ∧ items s' !! x = None).
Proof.
  intros Hit.
  assert (data it = data_at (items s) x) as -> by (unfold data_at; by rewrite Hit).
  split; [|split; [|split]].
  - intros pre P N post Hc.
    replace (pre ++ P :: x :: N :: post) with ((pre ++ [P]) ++ x :: N :: post) in Hc
      by (by rewrite <-app_assoc).
    destruct (LinkedListRemove_chain _ _ _ _ Hc) as (s' & Hrun & Hx & Hc' & HP & HN).
    exists s'. do 2 (split; [done|]). split; [|split].
    + apply (HP P). apply last_snoc.
    + rewrite (HN N eq_refl). by rewrite last_snoc.
    + by rewrite <-app_assoc in Hc'.
  - intros N post Hc.
    destruct (LinkedListRemove_chain s [] x (N :: post) Hc)
      as (s' & Hrun & Hx & Hc' & _ & HN).
    exists s'. do 2 (split; [done|]). split; [|done]. apply (HN N eq_refl).
  - intros pre P Hc.
    replace (pre ++ [P; x]) with ((pre ++ [P]) ++ [x]) in Hc
      by (by rewrite <-app_assoc).
    destruct (LinkedListRemove_chain _ _ _ _ Hc) as (s' & Hrun & Hx & Hc' & HP & _).
    exists s'. do 2 (split; [done|]). split; [|by rewrite app_nil_r in Hc'].
    apply (HP P), last_snoc.
  - intros Hc.
    destruct (LinkedListRemove_chain s [] x [] Hc) as (s' & Hrun & Hx & _).
    by exists s'.
Qed.

(** ** LinkedListCreateAfter *)

(** C5. When malloc gives a new block [B], [LinkedListCreateAfter] on a
    node [A] of a chain returns [B], which holds the payload and is
    linked after [A]: [A.next = B], [B.prev = A], and [B.next] is what
    [A.next] was, a node [C] with now [C.prev = B], or [NULL] when [A]
    was the tail.  No other node changes, and the nodes with [B] after
    [A] are a chain. *)
Theorem LinkedListCreateAfter_links
    (s : state) (pre post : list Z) (A B payload : Z) (g : ListItem) :
  chain (items s) (pre ++ A :: post) →
  B ≠ NULL → items s !! B = None →
  ∃ s', LinkedListCreateAfter (Some (B, g)) A payload s = Ok B s'
    ∧ nextItem <$> items s' !! A = Some B
    ∧ items s' !! B = Some (mkListItem A (default NULL (head post)) payload)
    ∧ (∀ C, head post = Some C → previousItem <$> items s' !! C = Some B)
    ∧ (∀ c, c ≠ A → c ≠ B → head post ≠ Some c → items s' !! c = items s !! c)
    ∧ chain (items s') (pre ++ A :: B :: post).
Proof.
  intros Hc HB HBfree. destruct (chain_node _ _ _ _ Hc) as (HA & d & HiA).
  assert (A ≠ B) as HAB by congruence.
  unfold LinkedListCreateAfter.
  rewrite (bind_Ok _ _ _ _ _ (LinkedListNew_Ok _ _ _ _ HB)). branch.
  destruct post as [|C post].
  - steps. eexists. split; [reflexivity|]. cbn.
    assert (∀ c, c ≠ A → c ≠ B → head [] ≠ Some c →
      <[A:=mkListItem (default NULL (last pre)) B d]>
        (<[B:=mkListItem A NULL payload]>
           (<[B:=mkListItem (previousItem g) NULL payload]>
              (<[B:=with_data g payload]> (<[B:=g]> (items s))))) !! c
      = items s !! c) as Hsame
      by (intros c ? ? _; by simplify_map_eq).
    do 2 (split; [by simplify_map_eq|]). split; [by intros ? [=]|].
    split; [done|].
    eapply chain_insert; [done|done|done| | | |done].
    + by simplify_map_eq.
    + intros itA ?. by simplify_map_eq.
    + intros ? ? [=].
  - destruct (chain_after _ _ _ _ _ Hc) as (HCn & HCA & _ & dC & HiC).
    assert (C ≠ B) as HCB by congruence.
    steps. eexists. split; [reflexivity|]. cbn.
    assert (∀ c, c ≠ A → c ≠ B → head (C :: post) ≠ Some c →
      <[A:=mkListItem (default NULL (last pre)) B d]>
        (<[C:=mkListItem B (default NULL (head post)) dC]>
           (<[B:=mkListItem A C payload]>
              (<[B:=mkListItem A (nextItem g) payload]>
                 (<[B:=with_data g payload]> (<[B:=g]> (items s)))))) !! c
      = items s !! c) as Hsame.
    { intros c ? ? Hc'. cbn in Hc'. assert (c ≠ C) by congruence.
      by simplify_map_eq. }
    do 2 (split; [by simplify_map_eq|]).
    split; [intros ? [= <-]; by simplify_map_eq|]. split; [done|].
    eapply chain_insert; [done|done|done| | | |done].
    + by simplify_map_eq.
    + intros itA ?. by simplify_map_eq.
    + intros ? ? [= <-] ?. by simplify_map_eq.
Qed.

(** ** The order of payloads *)

Lemma compare_bytes_refl a : compare_bytes a a = 0.
Proof. induction a as [|c a IH]; simpl; [done|]. by rewrite Z.eqb_refl. Qed.

Lemma compare_bytes_opp a b : compare_bytes b a = - compare_bytes a b.
Proof.
  revert b. induction a as [|c a IH]; intros [|d b]; simpl; try lia.
  rewrite (Z.eqb_sym (byte d)). destruct (byte c =? byte d); [apply IH|lia].
Qed.

Lemma compare_bytes_trans a b c :
  String.length a = String.length b → String.length b = String.length c →
  compare_bytes a b ≤ 0 → compare_bytes b c ≤ 0 → compare_bytes a c ≤ 0.
Proof.
  revert b c. induction a as [|x a IH]; intros [|y b] [|z c]; simpl; try done.
  intros [= Hab] [= Hbc].
  destruct (Z.eqb_spec (byte x) (byte y)), (Z.eqb_spec (byte y) (byte z)),
    (Z.eqb_spec (byte x) (byte z)); try lia.
  by apply IH.
Qed.

Lemma len_text p : len p = Z.of_nat (String.length (text p)).
Proof. by destruct p. Qed.

#[global] Instance ascending_refl : Reflexive ascending.
Proof. intros a. right. by rewrite compare_bytes_refl. Qed.

#[global] Instance ascending_trans : Transitive ascending.
Proof.
  intros a b c [Hab|[Hab Cab]] [Hbc|[Hbc Cbc]]; unfold ascending; try lia.
  right. split; [lia|]. rewrite !len_text in *.
  eapply compare_bytes_trans; [| |done|done]; lia.
Qed.

Lemma ascending_total a b : ascending a b ∨ ascending b a.
Proof.
  unfold ascending. rewrite (compare_bytes_opp (text a) (text b)).
  destruct (Z.lt_trichotomy (len a) (len b)) as [?|[?|?]]; lia.
Qed.

#[global] Instance null_first_refl : Reflexive null_first.
Proof. intros [a|]; [right|by left]. split; [done|reflexivity]. Qed.

#[global] Instance null_first_trans : Transitive null_first.
Proof.
  intros a b c [->|[Hb Hab]]; [by left|].
  intros [->|[Hc Hbc]]; [done|]. right. split; [done|by etrans].
Qed.

Lemma null_first_ascending a b : null_first a b → ascending a b.
Proof.
  intros [->|[_ H]]; [|done]. unfold ascending. simpl.
  destruct b as [[|c b]|]; simpl; lia.
Qed.

Lemma precedes_true c s :
  is_Some s → precedes c s = true → null_first c s.
Proof.
  intros Hs. destruct c as [c|]; [|by left]. unfold precedes.
  intros H. right. split; [by destruct Hs as [? ->]|].
  apply orb_true_iff in H as [H|H].
  - left. lia.
  - apply andb_true_iff in H as [H1 H2]. right. lia.
Qed.

Lemma precedes_false c s :
  is_Some s → precedes c s = false → null_first s c.
Proof.
  intros Hs. destruct c as [c|]; [|done]. unfold precedes.
  intros H. apply orb_false_iff in H as [H1 H2]. right. split; [done|].
  unfold ascending. rewrite (compare_bytes_opp (text (Some c)) (text s)).
  apply andb_false_iff in H2. lia.
Qed.

Lemma null_first_precedes c s :
  is_Some s → null_first s c → precedes c s = false.
Proof.
  intros Hs [->|[Hc H]]; [by destruct Hs|].
  destruct c as [c|]; [|done]. unfold precedes.
  rewrite (compare_bytes_opp (text s) (text (Some c))).
  destruct H as [H|[H1 H2]]; apply orb_false_iff; rewrite andb_false_iff; lia.
Qed.

(** ** The loops on sequences *)

Section passes_facts.
Context {A : Type} (key : A → option string).

Abbreviation before := (λ a b : A, null_first (key a) (key b)).

Lemma sort_pass_length sd ds : length (sort_pass key sd ds).2 = length ds.
Proof.
  revert sd. induction ds as [|cd ds IH]; intros sd; simpl; [done|].
  destruct (key sd); [|done]. destruct (precedes _ _).
  - specialize (IH cd). destruct (sort_pass key cd ds). simpl in *. lia.
  - specialize (IH sd). destruct (sort_pass key sd ds). simpl in *. lia.
Qed.

Lemma sort_pass_perm sd ds :
  (sort_pass key sd ds).1 :: (sort_pass key sd ds).2 ≡ₚ sd :: ds.
Proof.
  revert sd. induction ds as [|cd ds IH]; intros sd; simpl; [done|].
  destruct (key sd); [|done]. destruct (precedes _ _).
  - specialize (IH cd). destruct (sort_pass key cd ds) as [m r]. simpl in *.
    by rewrite (Permutation_swap sd m r), IH.
  - specialize (IH sd). destruct (sort_pass key sd ds) as [m r]. simpl in *.
    rewrite (Permutation_swap cd m r), IH. apply Permutation_swap.
Qed.

Lemma sort_pass_least sd ds :
  before (sort_pass key sd ds).1 sd
  ∧ Forall (before (sort_pass key sd ds).1) (sort_pass key sd ds).2.
Proof.
  revert sd. induction ds as [|cd ds IH]; intros sd; simpl.
  { split; [reflexivity|constructor]. }
  destruct (key sd) as [str|] eqn:Hsd.
  2:{ simpl. rewrite Hsd. split; [by left|]. apply Forall_forall. by left. }
  destruct (precedes _ _) eqn:Hp.
  - destruct (IH cd) as [H1 H2]. destruct (sort_pass key cd ds) as [m r].
    simpl in *. apply precedes_true in Hp; [|done].
    rewrite <-Hsd in Hp |- *.
    assert (null_first (key m) (key sd)) by (by etrans).
    split; [done|]. by constructor.
  - destruct (IH sd) as [H1 H2]. destruct (sort_pass key sd ds) as [m r].
    simpl in *. apply precedes_false in Hp; [|done].
    rewrite <-Hsd in Hp |- *.
    split; [done|]. constructor; [|done]. by etrans.
Qed.

Lemma sort_pass_sorted sd ds :
  Forall (before sd) ds → sort_pass key sd ds = (sd, ds).
Proof.
  revert sd. induction ds as [|cd ds IH]; intros sd Hall; simpl; [done|].
  apply Forall_cons in Hall as [Hcd Hall].
  destruct (key sd) as [str|] eqn:Hsd; [|done].
  rewrite null_first_precedes by (done || eauto).
  rewrite IH; [done|]. by rewrite Hsd.
Qed.

Lemma sort_passes_length n ds : length (sort_passes key n ds) = length ds.
Proof.
  revert ds. induction n as [|n IH]; intros [|d ds]; simpl; try done.
  pose proof (sort_pass_length d ds). destruct (sort_pass key d ds) as [m r].
  simpl in *. rewrite IH. lia.
Qed.

Lemma sort_passes_perm n ds : sort_passes key n ds ≡ₚ ds.
Proof.
  revert ds. induction n as [|n IH]; intros [|d ds]; simpl; try done.
  pose proof (sort_pass_perm d ds). destruct (sort_pass key d ds) as [m r].
  simpl in *. by rewrite IH.
Qed.

Lemma sort_passes_sorted n ds :
  (length ds ≤ n)%nat → StronglySorted before (sort_passes key n ds).
Proof.
  revert ds. induction n as [|n IH]; intros [|d ds]; simpl; intros Hn;
    try lia; try (constructor; fail).
  pose proof (sort_pass_length d ds). pose proof (sort_pass_least d ds) as [_ Hm].
  destruct (sort_pass key d ds) as [m r]. simpl in *.
  constructor; [apply IH; lia|]. by rewrite sort_passes_perm.
Qed.

Lemma sort_passes_id n ds :
  StronglySorted before ds → sort_passes key n ds = ds.
Proof.
  revert ds. induction n as [|n IH]; intros [|d ds]; simpl; try done.
  intros [Hd Hs]%StronglySorted_cons. rewrite sort_pass_sorted by done.
  by rewrite IH.
Qed.

Lemma sort_seq_perm ds : sort_seq key ds ≡ₚ ds.
Proof. apply sort_passes_perm. Qed.

Lemma sort_seq_sorted ds : StronglySorted before (sort_seq key ds).
Proof. by apply sort_passes_sorted. Qed.

Lemma sort_seq_id ds : StronglySorted before ds → sort_seq key ds = ds.
Proof. apply sort_passes_id. Qed.

Lemma sort_pass_key sd ds :
  sort_pass id (key sd) (key <$> ds)
  = (key (sort_pass key sd ds).1, key <$> (sort_pass key sd ds).2).
Proof.
  revert sd. induction ds as [|cd ds IH]; intros sd; [done|].
  rewrite fmap_cons. cbn [sort_pass].
  change (id (key sd)) with (key sd). change (id (key cd)) with (key cd).
  destruct (key sd) eqn:Hsd; [|cbn; by rewrite Hsd].
  destruct (precedes _ _); rewrite <-?Hsd, IH;
    destruct (sort_pass key _ ds); cbn; by rewrite ?Hsd.
Qed.

Lemma sort_passes_key n ds :
  key <$> sort_passes key n ds = sort_passes id n (key <$> ds).
Proof.
  revert ds. induction n as [|n IH]; intros [|d ds]; simpl; try done.
  rewrite sort_pass_key. destruct (sort_pass key d ds) as [m r]. simpl.
  by rewrite IH.
Qed.

Lemma sort_seq_key ds : key <$> sort_seq key ds = sort_seq id (key <$> ds).
Proof. unfold sort_seq. by rewrite length_fmap, sort_passes_key. Qed.
End passes_facts.

(** ** States that differ in data pointers only *)

Lemma relabels_refl L s : relabels L s s.
Proof. done. Qed.

Lemma relabels_trans L1 L2 L s1 s2 s3 :
  L1 ⊆ L → L2 ⊆ L → relabels L1 s1 s2 → relabels L2 s2 s3 → relabels L s1 s3.
Proof.
  intros H1 H2 (Hs & Ho & H12) (Hs' & Ho' & H23).
  split; [congruence|]. split; [congruence|]. intros a.
  destruct (H12 a) as [Hl Hf], (H23 a) as [Hl' Hf']. split; [congruence|].
  intros Ha. rewrite Hf', Hf; [done| |]; set_solver.
Qed.

Lemma relabels_swap a b ia ib s :
  items s !! a = Some ia → items s !! b = Some ib →
  relabels [a; b] s
    (with_items (λ h, <[b := with_data ib (data ia)]> (<[a := with_data ia (data ib)]> h)) s).
Proof.
  intros Ha Hb. split; [done|]. split; [done|]. intros c. cbn. split.
  - destruct (decide (c = b)) as [->|].
    { by rewrite lookup_insert_eq, Hb. }
    rewrite lookup_insert_ne by done.
    destruct (decide (c = a)) as [->|].
    { by rewrite lookup_insert_eq, Ha. }
    by rewrite lookup_insert_ne.
  - intros Hc. rewrite !not_elem_of_cons in Hc.
    by rewrite !lookup_insert_ne by naive_solver.
Qed.

Lemma relabels_lookup L s s' a it :
  relabels L s s' → items s !! a = Some it →
  ∃ d, items s' !! a = Some (with_data it d).
Proof.
  intros (_ & _ & H) Ha. destruct (H a) as [Hl _]. rewrite Ha in Hl.
  destruct (items s' !! a) as [[p n d]|]; [|done].
  injection Hl as -> ->. by exists d.
Qed.

Lemma relabels_data_at L s s' a :
  relabels L s s' → a ∉ L → data_at (items s') a = data_at (items s) a.
Proof. intros (_ & _ & H) Ha. unfold data_at. by rewrite (proj2 (H a) Ha). Qed.

Lemma relabels_datas L s s' l :
  relabels L s s' → (∀ a, a ∈ l → a ∉ L) →
  datas (items s') l = datas (items s) l.
Proof.
  intros Hr Hl. apply list_fmap_ext. intros i a Ha.
  eapply relabels_data_at; [done|]. apply Hl. by eapply list_elem_of_lookup_2.
Qed.

Lemma relabels_lseg L s s' l :
  relabels L s s' → lseg (items s) l → lseg (items s') l.
Proof.
  intros (_ & _ & H). induction l as [|a l IH]; [done|].
  simpl. intros (Ha & Hit & Hl). split; [done|]. split; [|by apply IH].
  destruct (H a) as [Hlinks _].
  destruct (items s !! a) as [it|]; [|done].
  destruct (items s' !! a) as [it'|]; [|done].
  injection Hlinks as _ Hn. by rewrite Hn.
Qed.

Lemma relabels_dseg L s s' p l n :
  relabels L s s' → dseg (items s) p l n → dseg (items s') p l n.
Proof. intros (_ & _ & H). apply dseg_frame. intros a _. apply H. Qed.

Lemma relabels_chain L s s' l :
  relabels L s s' → chain (items s) l → chain (items s') l.
Proof. intros Hr [Hnd Hd]. split; [done|]. by eapply relabels_dseg. Qed.

Lemma relabels_strings L s s' : relabels L s s' → strings s' = strings s.
Proof. by intros (Hs & _). Qed.

Lemma lseg_cons h a l :
  lseg h (a :: l) ↔
  a ≠ NULL ∧ (∃ it, h !! a = Some it ∧ nextItem it = default NULL (head l)) ∧ lseg h l.
Proof.
  simpl. split.
  - intros (Ha & Hit & Hl). destruct (h !! a) as [it|]; [|done]. eauto.
  - intros (Ha & (it & -> & Hn) & Hl). done.
Qed.

(** ** <string.h> *)

Lemma load_string_Ok d str s :
  d ≠ NULL → strings s !! d = Some str → load_string d s = Ok str s.
Proof.
  intros Hd Hstr. unfold load_string. rewrite Hstr.
  by rewrite eqb_NULL_false.
Qed.

Lemma strlen_Ok d str s :
  d ≠ NULL → strings s !! d = Some str →
  strlen d s = Ok (len (Some str)) s.
Proof.
  intros Hd Hstr. unfold strlen.
  by rewrite (bind_Ok _ _ _ _ _ (load_string_Ok _ _ _ Hd Hstr)).
Qed.

Lemma strcmp_Ok d1 d2 str1 str2 s :
  d1 ≠ NULL → strings s !! d1 = Some str1 →
  d2 ≠ NULL → strings s !! d2 = Some str2 →
  strcmp d1 d2 s = Ok (compare_bytes str1 str2) s.
Proof.
  intros Hd1 Hstr1 Hd2 Hstr2. unfold strcmp.
  rewrite (bind_Ok _ _ _ _ _ (load_string_Ok _ _ _ Hd1 Hstr1)).
  by rewrite (bind_Ok _ _ _ _ _ (load_string_Ok _ _ _ Hd2 Hstr2)).
Qed.

Lemma payload_of_NULL strs : payload_of strs NULL = None.
Proof. reflexivity. Qed.

Lemma payload_of_valid strs d :
  valid_string strs d → d ≠ NULL →
  ∃ str, strs !! d = Some str ∧ payload_of strs d = Some str.
Proof.
  intros [->|[str Hstr]] Hd; [done|]. exists str. split; [done|].
  unfold payload_of. by rewrite eqb_NULL_false.
Qed.

(** ** LinkedListSort *)

Lemma sort_compare_run sel c isel ic s :
  sel ≠ NULL → c ≠ NULL → sel ≠ c →
  items s !! sel = Some isel → items s !! c = Some ic →
  valid_string (strings s) (data isel) → valid_string (strings s) (data ic) →
  sort_compare sel c s
  = match payload_of (strings s) (data isel) with
    | None => Ok false s
    | Some _ =>
        if precedes (payload_of (strings s) (data ic)) (payload_of (strings s) (data isel))
        then Ok true
               (with_items
                  (λ h, <[c := with_data ic (data isel)]>
                          (<[sel := with_data isel (data ic)]> h)) s)
        else Ok true s
    end.
Proof.
  intros Hsel Hc Hne Hisel Hic Vsel Vc.
  pose proof (LinkedListSwapData_Ok sel c isel ic s Hsel Hc Hne Hisel Hic) as Hswap.
  unfold sort_compare. step.
  destruct (decide (data isel = NULL)) as [->|Hsd]; [done|].
  destruct (payload_of_valid _ _ Vsel Hsd) as (ss & Hss & ->).
  branch. step.
  destruct (decide (data ic = NULL)) as [Hcd|Hcd].
  { rewrite Hcd in Hswap |- *. branch.
    by rewrite (bind_Ok _ _ _ _ _ Hswap), payload_of_NULL. }
  destruct (payload_of_valid _ _ Vc Hcd) as (sc & Hsc & ->).
  pose proof (strlen_Ok _ _ _ Hsd Hss) as Hls.
  pose proof (strlen_Ok _ _ _ Hcd Hsc) as Hlc.
  pose proof (strcmp_Ok _ _ _ _ _ Hcd Hsc Hsd Hss) as Hcmp.
  branch. step. rewrite (bind_Ok _ _ _ _ _ Hls). step.
  rewrite (bind_Ok _ _ _ _ _ Hlc).
  unfold precedes. change (text (Some ?x)) with x.
  destruct (len (Some ss) >? len (Some sc)); cbn [orb].
  { by rewrite (bind_Ok _ _ _ _ _ Hswap). }
  step. rewrite (bind_Ok _ _ _ _ _ Hls). step.
  rewrite (bind_Ok _ _ _ _ _ Hlc).
  destruct (len (Some ss) =? len (Some sc)); cbn [andb]; [|done].
  do 2 step. rewrite (bind_Ok _ _ _ _ _ Hcmp).
  destruct (compare_bytes sc ss <? 0); [|done].
  by rewrite (bind_Ok _ _ _ _ _ Hswap).
Qed.

Lemma sort_inner_run cs : ∀ fuel sel s,
  sel ≠ NULL → is_Some (items s !! sel) → sel ∉ cs → NoDup cs →
  lseg (items s) cs →
  Forall (valid_string (strings s)) (datas (items s) (sel :: cs)) →
  (length cs < fuel)%nat →
  ∃ s', sort_inner fuel sel (default NULL (head cs)) s = Ok tt s'
    ∧ relabels (sel :: cs) s s'
    ∧ datas (items s') (sel :: cs)
      = (let '(m, r) := sort_pass (payload_of (strings s)) (data_at (items s) sel)
                          (datas (items s) cs) in m :: r).
Proof.
  induction cs as [|c cs IH]; intros fuel sel s Hsel [isel Hisel] Hcs Hnd Hl Hv Hfuel;
    (destruct fuel as [|fuel]; [simpl in Hfuel; lia|]).
  { exists s. split; [done|]. split; [apply relabels_refl|]. done. }
  apply lseg_cons in Hl as (Hc & (ic & Hic & Hn) & Hl).
  apply NoDup_cons in Hnd as [Hccs Hnd]. apply not_elem_of_cons in Hcs as [Hselc Hcs].
  assert (∀ s1 x y,
    relabels [sel; c] s s1 →
    data_at (items s1) sel = x → data_at (items s1) c = y →
    valid_string (strings s) x →
    ∃ s', (let* n := get_nextItem c in sort_inner fuel sel n) s1 = Ok tt s'
      ∧ relabels (sel :: c :: cs) s s'
      ∧ datas (items s') (sel :: c :: cs)
        = (let '(m, r) := sort_pass (payload_of (strings s)) x (datas (items s) cs)
           in m :: y :: r)) as Hcont.
  { intros s1 x y Hr Hx Hy Vx.
    destruct (relabels_lookup _ _ _ _ _ Hr Hic) as [dc Hic1].
    destruct (relabels_lookup _ _ _ _ _ Hr Hisel) as [dsel Hisel1].
    step. branch. rewrite Hn.
    assert (datas (items s1) cs = datas (items s) cs) as Hds.
    { eapply relabels_datas; [done|]. intros a Ha. set_solver. }
    destruct (IH fuel sel s1) as (s' & Hrun & Hr' & Hd'); try done.
    - eapply relabels_lseg; done.
    - apply Forall_cons in Hv as [_ Hv]. apply Forall_cons in Hv as [_ Hv].
      cbn [datas fmap list_fmap]. fold (datas (items s1) cs).
      rewrite Hx, Hds, (relabels_strings _ _ _ Hr). by apply Forall_cons.
    - simpl in Hfuel. lia.
    - exists s'. split; [done|]. split.
      { eapply relabels_trans; [| |done|done]; set_solver. }
      rewrite Hx, Hds, (relabels_strings _ _ _ Hr) in Hd'.
      destruct (sort_pass (payload_of (strings s)) x (datas (items s) cs)) as [m r].
      cbn [datas fmap list_fmap] in Hd' |- *. injection Hd' as Hm Hr1.
      f_equal; [done|]. f_equal; [|done].
      rewrite (relabels_data_at _ _ _ _ Hr'); [done|]. set_solver. }
  assert (valid_string (strings s) (data isel)) as Vsel.
  { apply Forall_cons in Hv as [V _]. unfold data_at in V. by rewrite Hisel in V. }
  assert (valid_string (strings s) (data ic)) as Vc.
  { apply Forall_cons in Hv as [_ Hv']. apply Forall_cons in Hv' as [V _].
    unfold data_at in V. by rewrite Hic in V. }
  cbn [sort_inner head default from_option id]. rewrite eqb_NULL_false by done.
  unfold bind at 1.
  rewrite (sort_compare_run sel c isel ic s Hsel Hc Hselc Hisel Hic Vsel Vc).
  assert (data_at (items s) sel = data isel) as Hdsel
    by (unfold data_at; by rewrite Hisel).
  assert (data_at (items s) c = data ic) as Hdc
    by (unfold data_at; by rewrite Hic).
  change (datas (items s) (c :: cs))
    with (data_at (items s) c :: datas (items s) cs).
  cbn [sort_pass]. rewrite Hdsel, Hdc.
  destruct (payload_of (strings s) (data isel)) as [ss|] eqn:Hps.
  2:{ exists s. split; [done|]. split; [apply relabels_refl|].
      unfold datas, data_at. cbn. by rewrite Hisel, Hic. }
  destruct (precedes _ _); cbv beta iota.
  - edestruct (Hcont
      (with_items (λ h, <[c := with_data ic (data isel)]>
                          (<[sel := with_data isel (data ic)]> h)) s)
      (data ic) (data isel)) as (s' & Hrun & Hr & Hd).
    + by apply relabels_swap.
    + unfold data_at. cbn. by simplify_map_eq.
    + unfold data_at. cbn. by simplify_map_eq.
    + done.
    + exists s'. split; [done|]. split; [done|]. rewrite Hd.
      by destruct (sort_pass _ _ _).
  - edestruct (Hcont s (data isel) (data ic)) as (s' & Hrun & Hr & Hd).
    + apply relabels_refl.
    + done.
    + done.
    + done.
    + exists s'. split; [done|]. split; [done|]. rewrite Hd.
      by destruct (sort_pass _ _ _).
Qed.

Lemma sort_pass_valid strs sd ds :
  Forall (valid_string strs) (sd :: ds) →
  Forall (valid_string strs) (sort_pass (payload_of strs) sd ds).2.
Proof.
  intros Hv. pose proof (sort_pass_perm (payload_of strs) sd ds) as Hp.
  rewrite <-Hp in Hv. by apply Forall_cons in Hv as [_ Hv].
Qed.

Lemma sort_outer_run rest : ∀ fuel inner x s,
  NoDup (x :: rest) → lseg (items s) (x :: rest) →
  Forall (valid_string (strings s)) (datas (items s) (x :: rest)) →
  (length rest < fuel)%nat → (length rest < inner)%nat →
  ∃ s', sort_outer inner fuel x s = Ok tt s'
    ∧ relabels (x :: rest) s s'
    ∧ datas (items s') (x :: rest)
      = sort_seq (payload_of (strings s)) (datas (items s) (x :: rest)).
Proof.
  induction rest as [|y rest IH]; intros fuel inner x s Hnd Hl Hv Hfuel Hinner;
    (destruct fuel as [|fuel]; [simpl in Hfuel; lia|]);
    pose proof Hl as (Hx & (ix & Hix & Hn) & Hl')%lseg_cons.
  { exists s. cbn [sort_outer]. step. rewrite Hn. split; [done|].
    split; [apply relabels_refl|done]. }
  pose proof Hl' as (Hy & _)%lseg_cons.
  pose proof Hnd as [Hxrest Hnd']%NoDup_cons.
  destruct (sort_inner_run (y :: rest) inner x s) as (s1 & Hrun1 & Hr1 & Hd1);
    try done.
  destruct (relabels_lookup _ _ _ _ _ Hr1 Hix) as [dx Hix1].
  cbn [sort_outer]. step. branch. rewrite Hn. cbn [head default from_option id].
  rewrite eqb_NULL_false by done. step. branch. rewrite Hn.
  rewrite (bind_Ok _ _ _ _ _ Hrun1). step. branch. rewrite Hn.
  cbn [head default from_option id].
  change (datas (items s) (x :: y :: rest))
    with (data_at (items s) x :: datas (items s) (y :: rest)) in *.
  pose proof (sort_pass_valid _ _ _ Hv) as Hv1.
  pose proof (sort_pass_length (payload_of (strings s)) (data_at (items s) x)
                (datas (items s) (y :: rest))) as Hlen.
  unfold sort_seq. cbn [length sort_passes].
  destruct (sort_pass (payload_of (strings s)) (data_at (items s) x)
              (datas (items s) (y :: rest))) as [m r].
  cbn [fst snd] in *.
  assert (data_at (items s1) x = m ∧ datas (items s1) (y :: rest) = r)
    as [Hm Hr] by (by injection Hd1).
  destruct (IH fuel inner y s1) as (s' & Hrun & Hr' & Hd'); try done.
  - by eapply relabels_lseg.
  - by rewrite Hr, (relabels_strings _ _ _ Hr1).
  - simpl in Hfuel. lia.
  - simpl in Hinner. lia.
  - exists s'. split; [done|]. split.
    { eapply relabels_trans; [| |done|done]; set_solver. }
    change (datas (items s') (x :: y :: rest))
      with (data_at (items s') x :: datas (items s') (y :: rest)).
    rewrite Hd', Hr, (relabels_strings _ _ _ Hr1).
    rewrite (relabels_data_at _ _ _ _ Hr') by done. rewrite Hm.
    unfold sort_seq. rewrite Hlen. unfold datas. by rewrite !length_fmap.
Qed.

Lemma LinkedListSort_run s pre x post fuel :
  chain (items s) (pre ++ x :: post) →
  Forall (valid_string (strings s)) (datas (items s) (x :: post)) →
  (length post < fuel)%nat →
  ∃ s', LinkedListSort fuel x s = Ok SUCCESS s'
    ∧ relabels (x :: post) s s'
    ∧ datas (items s') (x :: post)
      = sort_seq (payload_of (strings s)) (datas (items s) (x :: post)).
Proof.
  intros Hc Hv Hfuel. destruct (chain_node _ _ _ _ Hc) as [Hx _].
  apply chain_lseg in Hc as [Hnd Hl].
  destruct (sort_outer_run post fuel fuel x s) as (s' & Hrun & Hr & Hd); try done.
  exists s'. unfold LinkedListSort. rewrite eqb_NULL_false by done.
  by rewrite (bind_Ok _ _ _ _ _ Hrun).
Qed.

Lemma datas_app h l1 l2 : datas h (l1 ++ l2) = datas h l1 ++ datas h l2.
Proof. apply fmap_app. Qed.

Lemma StronglySorted_weaken {A} (R1 R2 : relation A) l :
  (∀ a b, R1 a b → R2 a b) → StronglySorted R1 l → StronglySorted R2 l.
Proof.
  intros H Hs. rewrite <-(list_fmap_id l).
  by apply (StronglySorted_fmap id R1 R2).
Qed.

Lemma payloads_sorted s s' L l :
  relabels L s s' →
  datas (items s') l = sort_seq (payload_of (strings s)) (datas (items s) l) →
  payloads s' l = sort_seq id (payloads s l).
Proof.
  intros Hr Hd. unfold payloads.
  by rewrite Hd, (relabels_strings _ _ _ Hr), sort_seq_key.
Qed.

(** C1. [LinkedListSort] on the head of a chain returns [SUCCESS] and
    leaves the same payloads in the chain, in ascending order: by length,
    [NULL] having length 0, and by bytes among equal lengths.  The chain
    [dog, cat, duck, goat, NULL] becomes [NULL, cat, dog, duck, goat]. *)
Theorem LinkedListSort_sorts (s : state) (x : Z) (post : list Z) (fuel : nat) :
  chain (items s) (x :: post) →
  Forall (valid_string (strings s)) (datas (items s) (x :: post)) →
  (length (x :: post) ≤ fuel)%nat →
  ∃ s', LinkedListSort fuel x s = Ok SUCCESS s'
    ∧ chain (items s') (x :: post)
    ∧ datas (items s') (x :: post) ≡ₚ datas (items s) (x :: post)
    ∧ StronglySorted ascending (payloads s' (x :: post))
    ∧ (payloads s (x :: post)
         = [Some "dog"; Some "cat"; Some "duck"; Some "goat"; None]%string →
       payloads s' (x :: post)
         = [None; Some "cat"; Some "dog"; Some "duck"; Some "goat"]%string).
Proof.
  intros Hc Hv Hfuel.
  destruct (LinkedListSort_run s [] x post fuel) as (s' & Hrun & Hr & Hd);
    [done|done|simpl in Hfuel; lia|].
  exists s'. split; [done|]. split; [by eapply relabels_chain|].
  split; [rewrite Hd; apply sort_seq_perm|].
  rewrite (payloads_sorted _ _ _ _ Hr Hd). split.
  - eapply StronglySorted_weaken; [|apply sort_seq_sorted].
    intros a b. apply null_first_ascending.
  - by intros ->.
Qed.

(** C7. [LinkedListSort] on a node of a chain changes no link: every
    address holds a node afterwards exactly if it did before, with the
    same [previousItem] and [nextItem].  The [data] pointers of the chain
    are the same ones, in another order. *)
Theorem LinkedListSort_keeps_links
    (s : state) (pre : list Z) (x : Z) (post : list Z) (fuel : nat) :
  chain (items s) (pre ++ x :: post) →
  Forall (valid_string (strings s)) (datas (items s) (x :: post)) →
  (length (x :: post) ≤ fuel)%nat →
  ∃ s', LinkedListSort fuel x s = Ok SUCCESS s'
    ∧ (∀ a, links <$> items s' !! a = links <$> items s !! a)
    ∧ chain (items s') (pre ++ x :: post)
    ∧ datas (items s') (pre ++ x :: post) ≡ₚ datas (items s) (pre ++ x :: post).
Proof.
  intros Hc Hv Hfuel.
  destruct (LinkedListSort_run s pre x post fuel) as (s' & Hrun & Hr & Hd);
    [done|done|simpl in Hfuel; lia|].
  exists s'. split; [done|]. split; [intros a; apply Hr|].
  split; [by eapply relabels_chain|].
  rewrite !datas_app, Hd, sort_seq_perm.
  rewrite (relabels_datas _ _ _ pre Hr); [done|].
  intros a Ha Hin. destruct Hc as [Hnd _].
  apply NoDup_app in Hnd as (_ & Hdisj & _). by apply (Hdisj a).
Qed.

(** C10. [LinkedListSort] on a node that is not the head leaves the
    nodes before it as they are, so the chain as a whole need not be in
    order afterwards: from the second node of
    [dog, cat, duck, goat, NULL] it gives [dog, NULL, cat, duck, goat]. *)
Theorem LinkedListSort_from_node_on :
  (∀ (s : state) (pre : list Z) (x : Z) (post : list Z) (fuel : nat),
     chain (items s) (pre ++ x :: post) →
     Forall (valid_string (strings s)) (datas (items s) (x :: post)) →
     (length (x :: post) ≤ fuel)%nat →
     ∃ s', LinkedListSort fuel x s = Ok SUCCESS s'
       ∧ (∀ a, a ∈ pre → items s' !! a = items s !! a)
       ∧ datas (items s') (x :: post) ≡ₚ datas (items s) (x :: post))
  ∧ (∃ s', LinkedListSort 4 32 animals = Ok SUCCESS s'
       ∧ payloads s' [16; 32; 48; 64; 80]
         = [Some "dog"; None; Some "cat"; Some "duck"; Some "goat"]%string).
Proof.
  split.
  - intros s pre x post fuel Hc Hv Hfuel.
    destruct (LinkedListSort_run s pre x post fuel) as (s' & Hrun & Hr & Hd);
      [done|done|simpl in Hfuel; lia|].
    exists s'. split; [done|]. split; [|rewrite Hd; apply sort_seq_perm].
    intros a Ha. apply Hr. intros Hin. destruct Hc as [Hnd _].
    apply NoDup_app in Hnd as (_ & Hdisj & _). by apply (Hdisj a).
  - eexists. split; [by vm_compute|]. by vm_compute.
Qed.

Lemma relabels_same_data L s s' :
  relabels L s s' → datas (items s') L = datas (items s) L → s' = s.
Proof.
  intros (Hstr & Hout & Hitems) Hd.
  assert (items s' = items s) as Hit.
  { apply map_eq. intros a. destruct (Hitems a) as [Hl Hf].
    destruct (decide (a ∈ L)) as [Ha|Ha]; [|by apply Hf].
    assert (data_at (items s') a = data_at (items s) a) as Hda.
    { clear -Hd Ha. induction L as [|b L IH]; [by apply elem_of_nil in Ha|].
      injection Hd as Hb HL. apply elem_of_cons in Ha as [->|Ha]; [done|].
      by apply IH. }
    unfold data_at in Hda.
    destruct (items s' !! a) as [[p' n' d']|], (items s !! a) as [[p n d]|];
      try done.
    simpl in Hda. injection Hl as -> ->. by rewrite Hda. }
  destruct s, s'. simpl in *. by subst.
Qed.

(** C8, as the code has it.  When the payloads from the given node on
    are in order, a [NULL] also before an empty string, [LinkedListSort]
    changes nothing: the state afterwards is the state before, and so
    are the payloads of the whole chain. *)
Theorem LinkedListSort_sorted_unchanged
    (s : state) (pre : list Z) (x : Z) (post : list Z) (fuel : nat) :
  chain (items s) (pre ++ x :: post) →
  Forall (valid_string (strings s)) (datas (items s) (x :: post)) →
  (length (x :: post) ≤ fuel)%nat →
  Sorted null_first (payloads s (x :: post)) →
  ∃ s', LinkedListSort fuel x s = Ok SUCCESS s'
    ∧ payloads s' (pre ++ x :: post) = payloads s (pre ++ x :: post)
    ∧ s' = s.
Proof.
  intros Hc Hv Hfuel Hs.
  destruct (LinkedListSort_run s pre x post fuel) as (s' & Hrun & Hr & Hd);
    [done|done|simpl in Hfuel; lia|].
  exists s'. split; [done|].
  assert (s' = s) as ->; [|done].
  apply (relabels_same_data _ _ _ Hr). rewrite Hd.
  apply sort_seq_id. apply Sorted_StronglySorted in Hs; [|apply _].
  unfold payloads in Hs. revert Hs. generalize (datas (items s) (x :: post)).
  intros l. induction l as [|d l IH]; [constructor|].
  rewrite fmap_cons. intros [Hall Hl]%StronglySorted_cons.
  apply StronglySorted_cons. split; [|by apply IH].
  by rewrite Forall_fmap in Hall.
Qed.

(** C8 as it is stated fails: an empty string and then [NULL] are in
    ascending order, both of length 0, and [LinkedListSort] exchanges
    them. *)
Lemma LinkedListSort_moves_NULL_before_empty :
  chain (items empty_then_null) [16; 32]
  ∧ Forall (valid_string (strings empty_then_null))
      (datas (items empty_then_null) [16; 32])
  ∧ payloads empty_then_null [16; 32] = [Some EmptyString; None]
  ∧ Sorted ascending (payloads empty_then_null [16; 32])
  ∧ ∃ s', LinkedListSort 2 16 empty_then_null = Ok SUCCESS s'
      ∧ payloads s' [16; 32] = [None; Some EmptyString]
      ∧ payloads s' [16; 32] ≠ payloads empty_then_null [16; 32].
Proof.
  split; [apply (bool_decide_unpack _); by vm_compute|].
  split; [repeat constructor; by eexists|].
  split; [by vm_compute|].
  split.
  { change (Sorted ascending [Some EmptyString; None]).
    apply Sorted_cons; [by repeat constructor|]. apply HdRel_cons.
    right. split; [reflexivity|]. by vm_compute. }
  eexists. split; [by vm_compute|]. split; by vm_compute.
Qed.

(** ** LinkedListGetFirst *)

Lemma getfirst_loop_run pre : ∀ x post fuel s,
  chain (items s) (pre ++ x :: post) → (length pre < fuel)%nat →
  getfirst_loop fuel x s = Ok (default x (head pre)) s.
Proof.
  induction pre as [|P pre IH] using rev_ind; intros x post fuel s Hc Hfuel;
    (destruct fuel as [|fuel]; [simpl in Hfuel; lia|]);
    destruct (chain_node _ _ _ _ Hc) as (Hx & d & Hix).
  { cbn [getfirst_loop]. step. by branch. }
  destruct (chain_before _ _ _ _ _ Hc) as (HP & _).
  rewrite last_snoc in Hix.
  cbn [getfirst_loop]. step. branch. step. branch.
  rewrite <-app_assoc in Hc. rewrite (IH P (x :: post) fuel s Hc).
  - by destruct pre.
  - rewrite length_app in Hfuel. simpl in Hfuel. lia.
Qed.

Lemma LinkedListGetFirst_run s pre x post fuel :
  chain (items s) (pre ++ x :: post) → (length pre < fuel)%nat →
  LinkedListGetFirst fuel x s = Ok (default x (head pre)) s.
Proof. apply getfirst_loop_run. Qed.

(** ** LinkedListPrint *)

Lemma append_String c a b : (String c a ++ b = String c (a ++ b))%string.
Proof. reflexivity. Qed.

Lemma append_assoc a b c : ((a ++ b) ++ c = a ++ (b ++ c))%string.
Proof.
  induction a as [|x a IH]; [done|]. by rewrite !append_String, IH.
Qed.

Lemma append_empty_r a : (a ++ EmptyString = a)%string.
Proof. induction a as [|x a IH]; [done|]. by rewrite append_String, IH. Qed.

Lemma print_loop_run l : ∀ fuel s,
  lseg (items s) l →
  Forall (valid_string (strings s)) (datas (items s) l) →
  (length l < fuel)%nat →
  print_loop fuel (default NULL (head l)) s
  = Ok tt (mkState (items s) (strings s)
             (stdout s ++ rendered (payloads s l) EmptyString)).
Proof.
  induction l as [|a l IH]; intros fuel s Hl Hv Hfuel;
    (destruct fuel as [|fuel]; [simpl in Hfuel; lia|]).
  { cbn. rewrite append_empty_r. by destruct s. }
  apply lseg_cons in Hl as (Ha & (it & Hit & Hn) & Hl).
  apply Forall_cons in Hv as [Va Hv]. unfold data_at in Va. rewrite Hit in Va.
  cbn [from_option] in Va.
  assert (payloads s (a :: l) = payload_of (strings s) (data it) :: payloads s l)
    as -> by (unfold payloads, datas, data_at; cbn; by rewrite Hit).
  cbn [print_loop head default from_option id]. branch. step.
  destruct (decide (data it = NULL)) as [Hd|Hd].
  - rewrite Hd. branch. unfold bind at 1. cbn [printf].
    unfold bind at 1.
    rewrite (get_nextItem_Ok a it) by done. rewrite Hn.
    rewrite IH; [|done|done|simpl in Hfuel; lia].
    cbn [items strings stdout payloads]. rewrite payload_of_NULL.
    cbn [rendered foldr render]. by rewrite append_assoc.
  - destruct (payload_of_valid _ _ Va Hd) as (str & Hstr & Hp).
    branch. step. branch.
    unfold printf_dash_s.
    rewrite bind_assoc, (bind_Ok _ _ _ _ _ (load_string_Ok _ _ _ Hd Hstr)).
    unfold bind at 1. cbn [printf]. unfold bind at 1.
    rewrite (get_nextItem_Ok a it) by done. rewrite Hn.
    rewrite IH; [|done|done|simpl in Hfuel; lia].
    cbn [items strings stdout payloads]. rewrite Hp.
    cbn [rendered foldr render]. by rewrite append_assoc.
Qed.

Lemma rendered_rest ps rest :
  (rendered ps EmptyString ++ rest = rendered ps rest)%string.
Proof.
  induction ps as [|p ps IH]; [done|].
  cbn [rendered foldr]. fold (rendered ps EmptyString). fold (rendered ps rest).
  by rewrite append_assoc, IH.
Qed.

Lemma LinkedListPrint_run s pre x post fuel :
  chain (items s) (pre ++ x :: post) →
  Forall (valid_string (strings s)) (datas (items s) (pre ++ x :: post)) →
  (length (pre ++ x :: post) < fuel)%nat →
  LinkedListPrint fuel x s
  = Ok SUCCESS
      (mkState (items s) (strings s)
         (stdout s ++ listing (payloads s (pre ++ x :: post)))).
Proof.
  intros Hc Hv Hfuel. destruct (chain_node _ _ _ _ Hc) as [Hx _].
  unfold LinkedListPrint. rewrite eqb_NULL_false by done.
  rewrite (bind_Ok _ _ _ _ _ (LinkedListGetFirst_run s pre x post fuel Hc
    ltac:(rewrite length_app in Hfuel; simpl in Hfuel; lia))).
  unfold bind at 1. cbn [printf].
  assert (default x (head pre) = default NULL (head (pre ++ x :: post))) as ->
    by (by destruct pre).
  destruct (chain_lseg _ [] _ Hc) as [_ Hl].
  rewrite (bind_Ok _ _ _ _ _
    (print_loop_run (pre ++ x :: post) fuel
       (mkState (items s) (strings s) (stdout s ++ "{")) Hl Hv Hfuel)).
  cbn. change (payloads (mkState (items s) (strings s) (stdout s ++ "{")))
    with (payloads s). unfold listing.
  rewrite <-(rendered_rest _ ("}" ++ newline)).
  f_equal. f_equal. by rewrite !append_assoc.
Qed.

(** C9. [LinkedListPrint] on a node of a chain returns [SUCCESS] and
    appends one line to the output: an opening brace, each payload from
    the head to the tail between two dashes, [(null)] standing for a
    [NULL] payload, a closing brace and a newline.  For
    [NULL, cat, dog, duck, goat] the line is
    [{-(null)--cat--dog--duck--goat-}]. *)
Theorem LinkedListPrint_line
    (s : state) (pre : list Z) (x : Z) (post : list Z) (fuel : nat) :
  chain (items s) (pre ++ x :: post) →
  Forall (valid_string (strings s)) (datas (items s) (pre ++ x :: post)) →
  (length (pre ++ x :: post) < fuel)%nat →
  ∃ s', LinkedListPrint fuel x s = Ok SUCCESS s'
    ∧ items s' = items s ∧ strings s' = strings s
    ∧ stdout s' = (stdout s ++ listing (payloads s (pre ++ x :: post)))%string
    ∧ (payloads s (pre ++ x :: post)
         = [None; Some "cat"; Some "dog"; Some "duck"; Some "goat"]%string →
       stdout s' = (stdout s ++ "{-(null)--cat--dog--duck--goat-}" ++ newline)%string).
Proof.
  intros Hc Hv Hfuel. eexists. split; [by apply LinkedListPrint_run|].
  cbn [items strings stdout]. do 3 (split; [done|]). by intros ->.
Qed.

(** ** The theorems on the chain of animals *)

Ltac evaluate := apply (bool_decide_unpack _); vm_compute; reflexivity.

Lemma LinkedListSort_sorts_animals :
  chain (items animals) [16; 32; 48; 64; 80]
  ∧ ∃ s', LinkedListSort 5 16 animals = Ok SUCCESS s'
      ∧ chain (items s') [16; 32; 48; 64; 80]
      ∧ datas (items s') [16; 32; 48; 64; 80] ≡ₚ datas (items animals) [16; 32; 48; 64; 80]
      ∧ StronglySorted ascending (payloads s' [16; 32; 48; 64; 80])
      ∧ (payloads animals [16; 32; 48; 64; 80]
           = [Some "dog"; Some "cat"; Some "duck"; Some "goat"; None]%string →
         payloads s' [16; 32; 48; 64; 80]
           = [None; Some "cat"; Some "dog"; Some "duck"; Some "goat"]%string).
Proof.
  split; [evaluate|].
  apply (LinkedListSort_sorts animals 16 [32; 48; 64; 80] 5);
    [evaluate|evaluate|simpl; lia].
Defined.

Lemma LinkedListSwapData_contract_animals :
  ∃ s', LinkedListSwapData 16 80 animals = Ok SUCCESS s'
    ∧ items s' !! 16 = Some (mkListItem NULL 32 NULL)
    ∧ items s' !! 80 = Some (mkListItem 64 NULL 1000)
    ∧ (∀ c, c ≠ 16 → c ≠ 80 → items s' !! c = items animals !! c)
    ∧ strings s' = strings animals ∧ stdout s' = stdout animals.
Proof.
  apply (proj2 (proj2 (LinkedListSwapData_contract 16 80 animals))
           (mkListItem NULL 32 1000) (mkListItem 64 NULL NULL));
    [unfold NULL; lia|unfold NULL; lia|vm_compute; reflexivity|vm_compute; reflexivity].
Defined.

Lemma LinkedListCreateAfter_links_animals :
  chain (items animals) ([16; 32] ++ 48 :: [64; 80])
  ∧ ∃ s', LinkedListCreateAfter (Some (96, mkListItem 16 32 0)) 48 1004 animals = Ok 96 s'
      ∧ nextItem <$> items s' !! 48 = Some 96
      ∧ items s' !! 96 = Some (mkListItem 48 64 1004)
      ∧ (∀ C, head [64; 80] = Some C → previousItem <$> items s' !! C = Some 96)
      ∧ (∀ c, c ≠ 48 → c ≠ 96 → head [64; 80] ≠ Some c →
           items s' !! c = items animals !! c)
      ∧ chain (items s') ([16; 32] ++ 48 :: 96 :: [64; 80]).
Proof.
  split; [evaluate|].
  apply (LinkedListCreateAfter_links animals [16; 32] [64; 80] 48 96 1004
           (mkListItem 16 32 0));
    [evaluate|unfold NULL; lia|vm_compute; reflexivity].
Defined.

Lemma LinkedListRemove_relinks_animals :
  ∃ s', LinkedListRemove 48 animals = Ok 1008 s'
    ∧ items s' !! 48 = None
    ∧ nextItem <$> items s' !! 32 = Some 64
    ∧ previousItem <$> items s' !! 64 = Some 32
    ∧ chain (items s') ([16] ++ 32 :: 64 :: [80]).
Proof.
  apply (proj1 (LinkedListRemove_relinks animals 48 (mkListItem 32 64 1008)
                  ltac:(vm_compute; reflexivity)) [16] 32 64 [80]).
  evaluate.
Defined.

Lemma LinkedListSort_keeps_links_animals :
  chain (items animals) ([16] ++ 32 :: [48; 64; 80])
  ∧ ∃ s', LinkedListSort 4 32 animals = Ok SUCCESS s'
      ∧ (∀ a, links <$> items s' !! a = links <$> items animals !! a)
      ∧ chain (items s') ([16] ++ 32 :: [48; 64; 80])
      ∧ datas (items s') ([16] ++ 32 :: [48; 64; 80])
        ≡ₚ datas (items animals) ([16] ++ 32 :: [48; 64; 80]).
Proof.
  split; [evaluate|].
  apply (LinkedListSort_keeps_links animals [16] 32 [48; 64; 80] 4);
    [evaluate|evaluate|simpl; lia].
Defined.

Lemma LinkedListSort_from_node_on_animals :
  ∃ s', LinkedListSort 4 32 animals = Ok SUCCESS s'
    ∧ (∀ a, a ∈ [16] → items s' !! a = items animals !! a)
    ∧ datas (items s') (32 :: [48; 64; 80]) ≡ₚ datas (items animals) (32 :: [48; 64; 80]).
Proof.
  apply (proj1 LinkedListSort_from_node_on animals [16] 32 [48; 64; 80] 4%nat);
    [evaluate|evaluate|simpl; lia].
Defined.

Lemma LinkedListSort_sorted_unchanged_animals :
  Sorted null_first (payloads animals_sorted (16 :: [32; 48; 64; 80]))
  ∧ ∃ s', LinkedListSort 5 16 animals_sorted = Ok SUCCESS s'
      ∧ payloads s' ([] ++ 16 :: [32; 48; 64; 80])
        = payloads animals_sorted ([] ++ 16 :: [32; 48; 64; 80])
      ∧ s' = animals_sorted.
Proof.
  assert (Sorted null_first (payloads animals_sorted (16 :: [32; 48; 64; 80]))) as Hs.
  { change (Sorted null_first
              [None; Some "cat"; Some "dog"; Some "duck"; Some "goat"]%string).
    repeat (apply Sorted_cons || apply HdRel_cons || apply Sorted_nil || apply HdRel_nil);
      try (by left);
      (right; split; [done|]);
      first [ left; vm_compute; reflexivity
            | right; split; [reflexivity|]; by vm_compute ]. }
  split; [exact Hs|].
  apply (LinkedListSort_sorted_unchanged animals_sorted [] 16 [32; 48; 64; 80] 5);
    [evaluate|evaluate|simpl; lia|exact Hs].
Defined.

Lemma LinkedListPrint_line_animals :
  ∃ s', LinkedListPrint 6 48 animals_sorted = Ok SUCCESS s'
    ∧ items s' = items animals_sorted ∧ strings s' = strings animals_sorted
    ∧ stdout s'
      = (stdout animals_sorted
         ++ listing (payloads animals_sorted ([16; 32] ++ 48 :: [64; 80])))%string
    ∧ (payloads animals_sorted ([16; 32] ++ 48 :: [64; 80])
         = [None; Some "cat"; Some "dog"; Some "duck"; Some "goat"]%string →
       stdout s'
       = (stdout animals_sorted ++ "{-(null)--cat--dog--duck--goat-}" ++ newline)%string).
Proof.
  apply (LinkedListPrint_line animals_sorted [16; 32] 48 [64; 80] 6);
    [evaluate|evaluate|simpl; lia].
Defined.

(** ** Runs *)

Example LinkedListSort_animals_run :
  LinkedListSort 5 16 animals = Ok SUCCESS animals_sorted.
Proof. vm_compute. reflexivity. Qed.

Example LinkedListPrint_animals_run :
  LinkedListPrint 6 64 animals_sorted
  = Ok SUCCESS
      (mkState (items animals_sorted) (strings animals_sorted)
         ("{-(null)--cat--dog--duck--goat-}" ++ newline)).
Proof. vm_compute. reflexivity. Qed.

Example LinkedListSort_empty_then_null_run :
  LinkedListSort 2 16 empty_then_null
  = Ok SUCCESS
      (mkState
         (list_to_map [(16, mkListItem NULL 32 NULL); (32, mkListItem 16 NULL 1000)])
         (strings empty_then_null) EmptyString).
Proof. vm_compute. reflexivity. Qed.

Example LinkedListSize_animals_run :
  LinkedListSize 6 48 animals = Ok 5 animals.
Proof. vm_compute. reflexivity. Qed.

(** * Further properties *)

Lemma state_eq s1 s2 :
  items s1 = items s2 → strings s1 = strings s2 → stdout s1 = stdout s2 →
  s1 = s2.
Proof. destruct s1, s2. simpl. by intros -> -> ->. Qed.

Lemma bind_Fault {A B} (m : M A) (k : A → M B) s :
  m s = Fault → bind m k s = Fault.
Proof. unfold bind. by intros ->. Qed.

(** ** LinkedListGetFirst and LinkedListSize on a chain *)

Lemma LinkedListGetFirst_elem s l y fuel :
  chain (items s) l → y ∈ l → (length l ≤ fuel)%nat →
  LinkedListGetFirst fuel y s = Ok (default NULL (head l)) s.
Proof.
  intros Hc Hy Hfuel. apply list_elem_of_split in Hy as (pre & post & ->).
  rewrite (LinkedListGetFirst_run s pre y post fuel Hc).
  - by destruct pre.
  - rewrite length_app in Hfuel. simpl in Hfuel. lia.
Qed.

(** X1. From any node of a chain [LinkedListGetFirst] returns the head,
    the node whose [previousItem] is [NULL], and changes nothing; from
    the head it returns the head itself. *)
Theorem LinkedListGetFirst_head
    (s : state) (pre : list Z) (x : Z) (post : list Z) (fuel : nat) :
  chain (items s) (pre ++ x :: post) →
  (length pre < fuel)%nat →
  ∃ h, head (pre ++ x :: post) = Some h
    ∧ LinkedListGetFirst fuel x s = Ok h s
    ∧ previousItem <$> items s !! h = Some NULL
    ∧ LinkedListGetFirst fuel h s = Ok h s.
Proof.
  intros Hc Hfuel. exists (default x (head pre)).
  split; [by destruct pre|].
  split; [by apply (LinkedListGetFirst_run s pre x post)|].
  assert (∃ rest, pre ++ x :: post = [] ++ default x (head pre) :: rest)
    as [rest Hl] by (destruct pre; simpl; eauto).
  rewrite Hl in Hc. destruct (chain_node _ _ _ _ Hc) as (_ & d & Hit).
  split; [by rewrite Hit|].
  apply (LinkedListGetFirst_run s [] _ rest fuel Hc). simpl. lia.
Qed.

Lemma size_loop_run l : ∀ fuel c s,
  lseg (items s) l → (length l < fuel)%nat →
  c + Z.of_nat (length l) ≤ INT_MAX →
  size_loop fuel (default NULL (head l)) c s = Ok (c + Z.of_nat (length l)) s.
Proof.
  induction l as [|a l IH]; intros fuel c s Hl Hfuel Hmax;
    (destruct fuel as [|fuel]; [simpl in Hfuel; lia|]).
  { cbn. by rewrite Z.add_0_r. }
  apply lseg_cons in Hl as (Ha & (it & Hit & Hn) & Hl).
  cbn [size_loop head default from_option id length] in *.
  rewrite eqb_NULL_false by done.
  destruct (Z.leb_spec INT_MAX c) as [Hle|_]; [lia|].
  step. rewrite Hn, IH; [|done|lia|lia]. f_equal. lia.
Qed.

Lemma LinkedListSize_elem s l y fuel :
  chain (items s) l → y ∈ l → (length l < fuel)%nat →
  Z.of_nat (length l) ≤ INT_MAX →
  LinkedListSize fuel y s = Ok (Z.of_nat (length l)) s.
Proof.
  intros Hc Hy Hfuel Hmax. unfold LinkedListSize.
  rewrite (bind_Ok _ _ _ _ _ (LinkedListGetFirst_elem s l y fuel Hc Hy
    ltac:(lia))).
  destruct (chain_lseg _ [] _ Hc) as [_ Hl].
  by rewrite (size_loop_run l fuel 0 s Hl Hfuel Hmax).
Qed.

(** X2. From any node of a chain [LinkedListSize] returns the number of
    nodes of the whole chain, the same for every node, and changes
    nothing, as long as the count fits an [int]. *)
Theorem LinkedListSize_counts_chain
    (s : state) (pre : list Z) (x : Z) (post : list Z) (fuel : nat) :
  chain (items s) (pre ++ x :: post) →
  (length (pre ++ x :: post) < fuel)%nat →
  Z.of_nat (length (pre ++ x :: post)) ≤ INT_MAX →
  LinkedListSize fuel x s = Ok (Z.of_nat (length (pre ++ x :: post))) s
  ∧ ∀ y, y ∈ pre ++ x :: post → LinkedListSize fuel y s = LinkedListSize fuel x s.
Proof.
  intros Hc Hfuel Hmax.
  assert (∀ y, y ∈ pre ++ x :: post →
    LinkedListSize fuel y s = Ok (Z.of_nat (length (pre ++ x :: post))) s) as H.
  { intros y Hy. by apply LinkedListSize_elem. }
  split; [apply H; set_solver|].
  intros y Hy. rewrite (H y Hy). symmetry. apply H. set_solver.
Qed.

(** ** LinkedListSwapData *)

Lemma get_data_unallocated p s : items s !! p = None → get_data p s = Fault.
Proof.
  intros Hp. unfold get_data, bind, load. rewrite Hp. by destruct (p =? NULL).
Qed.

Lemma LinkedListSwapData_Fault a b s :
  ¬ (a = NULL ∧ b = NULL) →
  a = NULL ∨ b = NULL ∨ items s !! a = None ∨ items s !! b = None →
  LinkedListSwapData a b s = Fault.
Proof.
  intros Hnn Hbad.
  destruct (decide (a = NULL)) as [Ha|Ha], (decide (b = NULL)) as [Hb|Hb];
    [tauto|apply LinkedListSwapData_one_NULL; tauto
    |apply LinkedListSwapData_one_NULL; tauto|].
  unfold LinkedListSwapData.
  rewrite (eqb_NULL_false a), (eqb_NULL_false b) by done. cbn [negb orb].
  destruct (items s !! a) as [ia|] eqn:Hia.
  - step. apply bind_Fault, get_data_unallocated.
    destruct Hbad as [?|[?|[?|?]]]; done.
  - by apply bind_Fault, get_data_unallocated.
Qed.

(** X3. [LinkedListSwapData] does not depend on the order of its two
    arguments: the result and the state afterwards are the same. *)
Theorem LinkedListSwapData_symmetric (a b : Z) (s : state) :
  LinkedListSwapData a b s = LinkedListSwapData b a s.
Proof.
  destruct (decide (a = b)) as [->|Hab]; [done|].
  destruct (decide (a = NULL ∧ b = NULL)) as [[-> ->]|Hnn]; [done|].
  destruct (decide (a = NULL ∨ b = NULL ∨ items s !! a = None ∨ items s !! b = None))
    as [Hbad|Hok].
  { rewrite !LinkedListSwapData_Fault; [done|tauto|tauto|tauto|tauto]. }
  destruct (items s !! a) as [ia|] eqn:Hia; [|tauto].
  destruct (items s !! b) as [ib|] eqn:Hib; [|tauto].
  rewrite (LinkedListSwapData_Ok a b ia ib), (LinkedListSwapData_Ok b a ib ia)
    by (done || tauto).
  f_equal. apply state_eq; [|done|done]. cbn. by apply insert_insert_ne.
Qed.

(** X4. Exchanging the payloads of two nodes twice gives back the state
    before the first exchange: [LinkedListSwapData] is its own inverse. *)
Theorem LinkedListSwapData_twice (a b : Z) (ia ib : ListItem) (s : state) :
  a ≠ NULL → b ≠ NULL →
  items s !! a = Some ia → items s !! b = Some ib →
  (LinkedListSwapData a b;; LinkedListSwapData a b) s = Ok SUCCESS s.
Proof.
  intros Ha Hb Hia Hib. destruct (decide (a = b)) as [<-|Hab].
  - rewrite (bind_Ok _ _ _ _ _ (LinkedListSwapData_same a ia s Ha Hia)).
    rewrite (LinkedListSwapData_same a ia); [|done|cbn; by simplify_map_eq].
    f_equal. apply state_eq; [|done|done]. cbn.
    rewrite !insert_insert_eq. by apply insert_id.
  - rewrite (bind_Ok _ _ _ _ _ (LinkedListSwapData_Ok a b ia ib s Ha Hb Hab Hia Hib)).
    rewrite (LinkedListSwapData_Ok a b (with_data ia (data ib)) (with_data ib (data ia)));
      [|done|done|done|cbn; by simplify_map_eq|cbn; by simplify_map_eq].
    f_equal. apply state_eq; [|done|done]. cbn.
    apply map_eq. intros c.
    destruct (decide (c = b)) as [->|Hcb]; [simplify_map_eq; by destruct ib|].
    destruct (decide (c = a)) as [->|Hca]; [simplify_map_eq; by destruct ia|].
    by simplify_map_eq.
Qed.

(** ** What LinkedListRemove and LinkedListCreateAfter leave alone *)

(** X5. [LinkedListRemove] on a node of a chain touches that node and
    the one link of each neighbour that pointed to it, nothing else:
    every other node keeps its [data], every node that is not a
    neighbour keeps its whole contents, the previous node keeps its
    [previousItem] and the next node its [nextItem]; strings and output
    are as before. *)
Theorem LinkedListRemove_frame
    (s : state) (pre : list Z) (x : Z) (post : list Z) :
  chain (items s) (pre ++ x :: post) →
  ∃ s', LinkedListRemove x s = Ok (data_at (items s) x) s'
    ∧ (∀ a, a ≠ x → data <$> items s' !! a = data <$> items s !! a)
    ∧ (∀ a, a ≠ x → last pre ≠ Some a → head post ≠ Some a →
         items s' !! a = items s !! a)
    ∧ (∀ P, last pre = Some P →
         previousItem <$> items s' !! P = previousItem <$> items s !! P)
    ∧ (∀ N, head post = Some N →
         nextItem <$> items s' !! N = nextItem <$> items s !! N)
    ∧ strings s' = strings s ∧ stdout s' = stdout s.
Proof.
  intros Hc.
  destruct (LinkedListRemove_spec _ _ _ _ Hc)
    as (s' & Hrun & Hx & HP & HN & Hsame & Hstr & Hout).
  assert (∀ P, last pre = Some P → ∃ itP, items s !! P = Some itP) as HPa.
  { intros P [pre' ->]%last_Some.
    destruct (chain_before _ _ _ _ _ Hc) as (_ & _ & _ & d & ->). eauto. }
  assert (∀ N, head post = Some N → ∃ itN, items s !! N = Some itN) as HNa.
  { intros N [post' ->]%head_Some.
    destruct (chain_after _ _ _ _ _ Hc) as (_ & _ & _ & d & ->). eauto. }
  exists s'. split; [done|]. split; [|split; [done|split; [|split; [|done]]]].
  - intros a Ha. destruct (decide (last pre = Some a)) as [Hl|Hl].
    { destruct (HPa a Hl) as [itP HitP]. by rewrite (HP a itP Hl HitP), HitP. }
    destruct (decide (head post = Some a)) as [Hh|Hh].
    { destruct (HNa a Hh) as [itN HitN]. by rewrite (HN a itN Hh HitN), HitN. }
    by rewrite Hsame.
  - intros P Hl. destruct (HPa P Hl) as [itP HitP].
    by rewrite (HP P itP Hl HitP), HitP.
  - intros N Hh. destruct (HNa N Hh) as [itN HitN].
    by rewrite (HN N itN Hh HitN), HitN.
Qed.

Lemma LinkedListCreateAfter_run s pre A post B g payload :
  chain (items s) (pre ++ A :: post) →
  B ≠ NULL → items s !! B = None →
  ∃ s', LinkedListCreateAfter (Some (B, g)) A payload s = Ok B s'
    ∧ items s' !! B = Some (mkListItem A (default NULL (head post)) payload)
    ∧ (∀ itA, items s !! A = Some itA →
         items s' !! A = Some (mkListItem (previousItem itA) B (data itA)))
    ∧ (∀ C itC, head post = Some C → items s !! C = Some itC →
         items s' !! C = Some (mkListItem B (nextItem itC) (data itC)))
    ∧ (∀ c, c ≠ A → c ≠ B → head post ≠ Some c → items s' !! c = items s !! c)
    ∧ strings s' = strings s ∧ stdout s' = stdout s.
Proof.
  intros Hc HB HBfree. destruct (chain_node _ _ _ _ Hc) as (HA & d & HiA).
  assert (A ≠ B) as HAB by congruence.
  unfold LinkedListCreateAfter.
  rewrite (bind_Ok _ _ _ _ _ (LinkedListNew_Ok _ _ _ _ HB)). branch.
  destruct post as [|C post].
  - steps. eexists. split; [reflexivity|]. cbn.
    split; [by simplify_map_eq|]. split; [intros ? ?; by simplify_map_eq|].
    split; [by intros ? ? [=]|]. split; [|done].
    intros c ? ? _. by simplify_map_eq.
  - destruct (chain_after _ _ _ _ _ Hc) as (HCn & HCA & _ & dC & HiC).
    assert (C ≠ B) as HCB by congruence.
    steps. eexists. split; [reflexivity|]. cbn.
    split; [by simplify_map_eq|]. split; [intros ? ?; by simplify_map_eq|].
    split; [intros ? ? [= <-] ?; by simplify_map_eq|]. split; [|done].
    intros c ? ? Hc'. assert (c ≠ C) by congruence. by simplify_map_eq.
Qed.

Lemma LinkedListCreateAfter_chain s pre A post B g payload :
  chain (items s) (pre ++ A :: post) →
  B ≠ NULL → items s !! B = None →
  ∃ s', LinkedListCreateAfter (Some (B, g)) A payload s = Ok B s'
    ∧ chain (items s') (pre ++ A :: B :: post)
    ∧ strings s' = strings s ∧ stdout s' = stdout s.
Proof.
  intros Hc HB HBfree.
  destruct (LinkedListCreateAfter_run s pre A post B g payload Hc HB HBfree)
    as (s' & Hrun & HiB & HiA & HiC & Hsame & Hstr & Hout).
  exists s'. split; [done|]. split; [|done]. by eapply chain_insert.
Qed.

(** X6. Inserting a node after [A] and removing it again gives back the
    state before the insertion, and [LinkedListRemove] returns the
    payload that was inserted. *)
Theorem LinkedListCreateAfter_then_Remove
    (s : state) (pre post : list Z) (A B payload : Z) (g : ListItem) :
  chain (items s) (pre ++ A :: post) →
  B ≠ NULL → items s !! B = None →
  (let* new := LinkedListCreateAfter (Some (B, g)) A payload in
   LinkedListRemove new) s
  = Ok payload s.
Proof.
  intros Hc HB HBfree. destruct (chain_node _ _ _ _ Hc) as (HA & dA & HitA).
  destruct (LinkedListCreateAfter_run s pre A post B g payload Hc HB HBfree)
    as (s1 & Hrun1 & HiB & HiA & HiC & Hsame & Hstr & Hout).
  assert (chain (items s1) ((pre ++ [A]) ++ B :: post)) as Hc1.
  { rewrite <-app_assoc. by eapply chain_insert. }
  destruct (LinkedListRemove_spec _ _ _ _ Hc1)
    as (s2 & Hrun2 & HB2 & HP2 & HN2 & Hsame2 & Hstr2 & Hout2).
  rewrite (bind_Ok _ _ _ _ _ Hrun1), Hrun2. unfold data_at. rewrite HiB.
  cbn [from_option data]. f_equal.
  apply state_eq; [|congruence|congruence].
  apply map_eq. intros c. rewrite last_snoc in HP2, HN2, Hsame2.
  destruct (decide (c = B)) as [->|HcB]; [congruence|].
  destruct (decide (c = A)) as [->|HcA].
  { rewrite (HP2 A _ eq_refl (HiA _ HitA)). by rewrite HitA. }
  destruct (decide (head post = Some c)) as [Hh|Hh].
  { pose proof Hh as [post' ->]%head_Some.
    destruct (chain_after _ _ _ _ _ Hc) as (_ & _ & _ & dC & HitC).
    rewrite (HN2 c _ Hh (HiC c _ Hh HitC)). by rewrite HitC. }
  rewrite Hsame2 by congruence. by apply Hsame.
Qed.

(** ** How the operations compose *)

(** X7. Inserting a node makes the chain one node longer: afterwards
    [LinkedListSize] returns, from every node of the chain, the new one
    included, one more than before. *)
Theorem LinkedListSize_after_CreateAfter
    (s : state) (pre post : list Z) (A B payload : Z) (g : ListItem) (fuel : nat) :
  chain (items s) (pre ++ A :: post) →
  B ≠ NULL → items s !! B = None →
  (S (length (pre ++ A :: post)) < fuel)%nat →
  Z.of_nat (length (pre ++ A :: post)) + 1 ≤ INT_MAX →
  ∃ n s', LinkedListSize fuel A s = Ok n s
    ∧ LinkedListCreateAfter (Some (B, g)) A payload s = Ok B s'
    ∧ ∀ y, y ∈ pre ++ A :: B :: post → LinkedListSize fuel y s' = Ok (n + 1) s'.
Proof.
  intros Hc HB HBfree Hfuel Hmax.
  destruct (LinkedListCreateAfter_chain s pre A post B g payload Hc HB HBfree)
    as (s' & Hrun & Hc' & _).
  exists (Z.of_nat (length (pre ++ A :: post))), s'. split; [|split; [done|]].
  - apply LinkedListSize_elem; [done|set_solver|lia|lia].
  - intros y Hy. rewrite (LinkedListSize_elem s' _ y fuel Hc' Hy).
    + f_equal. rewrite !length_app. simpl. lia.
    + rewrite !length_app in *. simpl in *. lia.
    + rewrite !length_app in *. simpl in *. lia.
Qed.

(** X8. Removing a node makes the chain one node shorter: afterwards
    [LinkedListSize] returns, from every node that is left, one less
    than before. *)
Theorem LinkedListSize_after_Remove
    (s : state) (pre : list Z) (x : Z) (post : list Z) (fuel : nat) :
  chain (items s) (pre ++ x :: post) →
  (length (pre ++ x :: post) < fuel)%nat →
  Z.of_nat (length (pre ++ x :: post)) ≤ INT_MAX →
  ∃ n d s', LinkedListSize fuel x s = Ok n s
    ∧ LinkedListRemove x s = Ok d s'
    ∧ ∀ y, y ∈ pre ++ post → LinkedListSize fuel y s' = Ok (n - 1) s'.
Proof.
  intros Hc Hfuel Hmax.
  destruct (LinkedListRemove_chain _ _ _ _ Hc) as (s' & Hrun & _ & Hc' & _).
  exists (Z.of_nat (length (pre ++ x :: post))), (data_at (items s) x), s'.
  split; [|split; [done|]].
  - apply LinkedListSize_elem; [done|set_solver|lia|lia].
  - intros y Hy. rewrite (LinkedListSize_elem s' _ y fuel Hc' Hy).
    + f_equal. rewrite !length_app. simpl. lia.
    + rewrite !length_app in *. simpl in *. lia.
    + rewrite !length_app in *. simpl in *. lia.
Qed.

(** X9. After the head of a chain is removed, the node that followed it
    is the head: [LinkedListGetFirst] returns it from every node that is
    left.  After another node is removed the head is the same as before. *)
Theorem LinkedListGetFirst_after_Remove
    (s : state) (pre : list Z) (x : Z) (post : list Z) (fuel : nat) :
  chain (items s) (pre ++ x :: post) →
  (length (pre ++ x :: post) ≤ fuel)%nat →
  ∃ d s', LinkedListRemove x s = Ok d s'
    ∧ ∀ y h, y ∈ pre ++ post → head (pre ++ post) = Some h →
        LinkedListGetFirst fuel y s' = Ok h s'.
Proof.
  intros Hc Hfuel.
  destruct (LinkedListRemove_chain _ _ _ _ Hc) as (s' & Hrun & _ & Hc' & _).
  exists (data_at (items s) x), s'. split; [done|].
  intros y h Hy Hh. rewrite (LinkedListGetFirst_elem s' _ y fuel Hc' Hy).
  - by rewrite Hh.
  - rewrite !length_app in *. simpl in *. lia.
Qed.

(** ** More on LinkedListSort *)

(** X10. After [LinkedListSort] the [NULL] payloads come first: from the
    node given on, every payload is [NULL] or is a string that goes,
    by length and then by bytes, before all the payloads after it, none
    of which is [NULL]; an empty string never stays before a [NULL]. *)
Theorem LinkedListSort_NULL_first
    (s : state) (pre : list Z) (x : Z) (post : list Z) (fuel : nat) :
  chain (items s) (pre ++ x :: post) →
  Forall (valid_string (strings s)) (datas (items s) (x :: post)) →
  (length (x :: post) ≤ fuel)%nat →
  ∃ s', LinkedListSort fuel x s = Ok SUCCESS s'
    ∧ StronglySorted null_first (payloads s' (x :: post)).
Proof.
  intros Hc Hv Hfuel.
  destruct (LinkedListSort_run s pre x post fuel) as (s' & Hrun & Hr & Hd);
    [done|done|simpl in Hfuel; lia|].
  exists s'. split; [done|]. rewrite (payloads_sorted _ _ _ _ Hr Hd).
  apply (sort_seq_sorted id).
Qed.

(** X11. Sorting what [LinkedListSort] has sorted changes nothing: the
    second call returns the state it was given. *)
Theorem LinkedListSort_twice
    (s : state) (pre : list Z) (x : Z) (post : list Z) (fuel : nat) :
  chain (items s) (pre ++ x :: post) →
  Forall (valid_string (strings s)) (datas (items s) (x :: post)) →
  (length (x :: post) ≤ fuel)%nat →
  ∃ s1, LinkedListSort fuel x s = Ok SUCCESS s1
    ∧ (LinkedListSort fuel x;; LinkedListSort fuel x) s = Ok SUCCESS s1.
Proof.
  intros Hc Hv Hfuel.
  destruct (LinkedListSort_run s pre x post fuel) as (s1 & Hrun1 & Hr1 & Hd1);
    [done|done|simpl in Hfuel; lia|].
  destruct (LinkedListSort_run s1 pre x post fuel) as (s2 & Hrun2 & Hr2 & Hd2).
  - by eapply relabels_chain.
  - by rewrite Hd1, (relabels_strings _ _ _ Hr1), sort_seq_perm.
  - simpl in Hfuel. lia.
  - exists s1. split; [done|]. rewrite (bind_Ok _ _ _ _ _ Hrun1), Hrun2.
    f_equal. apply (relabels_same_data _ _ _ Hr2).
    rewrite Hd2, Hd1, (relabels_strings _ _ _ Hr1).
    apply sort_seq_id, sort_seq_sorted.
Qed.

(** X12. On the last node of a chain, and so on a node alone,
    [LinkedListSort] compares nothing: it returns [SUCCESS] and the
    state it was given, whatever the [data] pointer of the node is. *)
Theorem LinkedListSort_last_node
    (s : state) (pre : list Z) (x : Z) (fuel : nat) :
  chain (items s) (pre ++ [x]) →
  (0 < fuel)%nat →
  LinkedListSort fuel x s = Ok SUCCESS s.
Proof.
  intros Hc Hfuel. destruct (chain_node _ _ _ _ Hc) as (Hx & d & Hit).
  destruct fuel as [|fuel]; [lia|].
  unfold LinkedListSort. rewrite eqb_NULL_false by done.
  cbn [sort_outer]. rewrite bind_assoc. step. by branch.
Qed.

(** X13. [LinkedListSort] on the head and then [LinkedListPrint] on any
    node print the payloads of the chain in ascending order, as one
    line after what was printed before. *)
Theorem LinkedListSort_then_Print
    (s : state) (x : Z) (post : list Z) (y : Z) (fuel : nat) :
  chain (items s) (x :: post) →
  Forall (valid_string (strings s)) (datas (items s) (x :: post)) →
  y ∈ x :: post →
  (length (x :: post) < fuel)%nat →
  ∃ s', (LinkedListSort fuel x;; LinkedListPrint fuel y) s = Ok SUCCESS s'
    ∧ stdout s' = (stdout s ++ listing (sort_seq id (payloads s (x :: post))))%string
    ∧ StronglySorted ascending (sort_seq id (payloads s (x :: post))).
Proof.
  intros Hc Hv Hy Hfuel.
  destruct (LinkedListSort_run s [] x post fuel) as (s1 & Hrun1 & Hr1 & Hd1);
    [done|done|simpl in Hfuel; lia|].
  pose proof (relabels_chain _ _ _ _ Hr1 Hc) as Hc1.
  pose proof (payloads_sorted _ _ _ _ Hr1 Hd1) as Hp1.
  assert (Forall (valid_string (strings s1)) (datas (items s1) (x :: post))) as Hv1.
  { by rewrite Hd1, (relabels_strings _ _ _ Hr1), sort_seq_perm. }
  apply list_elem_of_split in Hy as (l1 & l2 & Hl). rewrite Hl in Hc1, Hv1, Hfuel, Hp1.
  eexists. split.
  { rewrite (bind_Ok _ _ _ _ _ Hrun1).
    by apply (LinkedListPrint_run s1 l1 y l2 fuel). }
  cbn [stdout]. destruct Hr1 as (_ & -> & _). rewrite Hp1, <-Hl.
  split; [done|]. eapply StronglySorted_weaken; [|apply sort_seq_sorted].
  intros a b. apply null_first_ascending.
Qed.

(** ** Starting a list *)

(** X14. On a block whose two links are zero [LinkedListNew] makes a
    chain of one node that holds the payload, and leaves every other
    node, and so every chain there was, as it is. *)
Theorem LinkedListNew_zeroed_block (s : state) (p junk d : Z) :
  p ≠ NULL → items s !! p = None →
  ∃ s', LinkedListNew (Some (p, mkListItem NULL NULL junk)) d s = Ok p s'
    ∧ items s' !! p = Some (mkListItem NULL NULL d)
    ∧ chain (items s') [p]
    ∧ (∀ a, a ≠ p → items s' !! a = items s !! a)
    ∧ (∀ l, chain (items s) l → chain (items s') l)
    ∧ strings s' = strings s ∧ stdout s' = stdout s.
Proof.
  intros Hp Hfree. eexists. split; [by apply LinkedListNew_Ok|]. cbn.
  assert (∀ a, a ≠ p →
    <[p:=with_data (mkListItem NULL NULL junk) d]>
      (<[p:=mkListItem NULL NULL junk]> (items s)) !! a = items s !! a) as Hsame
    by (intros a ?; by simplify_map_eq).
  split; [by simplify_map_eq|]. split.
  { split; [apply NoDup_singleton|]. apply dseg_cons.
    split; [done|]. split; [|done]. exists d. by simplify_map_eq. }
  split; [done|]. split; [|done].
  intros l [Hnd Hd]. split; [done|]. eapply dseg_frame; [|done].
  intros a Ha. rewrite Hsame; [done|]. intros ->.
  destruct (chain_allocated _ _ _ (conj Hnd Hd) Ha) as [_ [? ?]]. congruence.
Qed.

(** X15. A list is built by [LinkedListNew] on a zeroed block and
    [LinkedListCreateAfter] on what it returns: the two nodes are a
    chain with the two payloads in this order. *)
Theorem LinkedListNew_then_CreateAfter
    (s : state) (p q junk d e : Z) (g : ListItem) :
  p ≠ NULL → q ≠ NULL → p ≠ q →
  items s !! p = None → items s !! q = None →
  ∃ s', (let* first := LinkedListNew (Some (p, mkListItem NULL NULL junk)) d in
         LinkedListCreateAfter (Some (q, g)) first e) s = Ok q s'
    ∧ chain (items s') [p; q]
    ∧ datas (items s') [p; q] = [d; e].
Proof.
  intros Hp Hq Hpq Hfp Hfq.
  rewrite (bind_Ok _ _ _ _ _ (LinkedListNew_Ok p _ d s Hp)).
  set (s1 := with_items _ (with_items _ s)).
  assert (items s1 !! p = Some (mkListItem NULL NULL d)) as Hip
    by (cbn; by simplify_map_eq).
  assert (chain (items s1) ([] ++ p :: [])) as Hc1.
  { split; [apply NoDup_singleton|]. apply dseg_cons.
    split; [done|]. split; [|done]. by exists d. }
  assert (items s1 !! q = None) as Hfq1 by (cbn; by simplify_map_eq).
  destruct (LinkedListCreateAfter_run s1 [] p [] q g e Hc1 Hq Hfq1)
    as (s' & Hrun & Hiq & Hip' & HiC & Hsame & _).
  exists s'. split; [done|]. split.
  - by apply (chain_insert (items s1) (items s') [] p q [] e).
  - unfold datas, data_at. cbn. by rewrite (Hip' _ Hip), Hiq.
Qed.

(** X16. [LinkedListNew] and [LinkedListCreateAfter] never return
    [NULL]: the pointer they return, if they return, is the block malloc
    gave, and without a block they do not get to their [return NULL]. *)
Theorem LinkedListNew_never_NULL
    (m : option (Z * ListItem)) (item d p : Z) (s s' : state) :
  (LinkedListNew m d s = Ok p s' → p ≠ NULL ∧ ∃ g, m = Some (p, g))
  ∧ (LinkedListCreateAfter m item d s = Ok p s' → p ≠ NULL ∧ ∃ g, m = Some (p, g)).
Proof.
  assert (∀ r s0 s1, LinkedListNew m d s0 = Ok r s1 →
            r ≠ NULL ∧ ∃ g, m = Some (r, g)) as HNew.
  { intros r s0 s1. destruct m as [[q g]|]; [|done].
    destruct (decide (q = NULL)) as [->|Hq]; [done|].
    rewrite LinkedListNew_Ok by done. intros [= -> _]. eauto. }
  split; [apply HNew|].
  unfold LinkedListCreateAfter. intros (new & s1 & Hrun & H)%bind_inv.
  destruct (HNew _ _ _ Hrun) as [Hnew Hm].
  rewrite eqb_NULL_false in H by done.
  do 2 (apply bind_inv in H as (? & ? & _ & H)). unfold ret in H.
  by injection H as <- _.
Qed.

(** ** Printing a chain that was changed *)

Lemma LinkedListRemove_datas s pre x post :
  chain (items s) (pre ++ x :: post) →
  ∃ s', LinkedListRemove x s = Ok (data_at (items s) x) s'
    ∧ chain (items s') (pre ++ post)
    ∧ datas (items s') (pre ++ post) = datas (items s) (pre ++ post)
    ∧ strings s' = strings s ∧ stdout s' = stdout s.
Proof.
  intros Hc.
  destruct (LinkedListRemove_spec _ _ _ _ Hc)
    as (s' & Hrun & Hx & HP & HN & Hsame & Hstr & Hout).
  exists s'. split; [done|]. split; [by eapply chain_remove|]. split; [|done].
  apply list_fmap_ext. intros i a Ha%list_elem_of_lookup_2. unfold data_at.
  destruct (decide (last pre = Some a)) as [Hl|Hl].
  { pose proof Hl as [pre' ->]%last_Some.
    destruct (chain_before _ _ _ _ _ Hc) as (_ & _ & _ & d & HiP).
    by rewrite (HP a _ Hl HiP), HiP. }
  destruct (decide (head post = Some a)) as [Hh|Hh].
  { pose proof Hh as [post' ->]%head_Some.
    destruct (chain_after _ _ _ _ _ Hc) as (_ & _ & _ & d & HiN).
    by rewrite (HN a _ Hh HiN), HiN. }
  rewrite Hsame; [done| |done|done]. intros ->. destruct Hc as [Hnd _].
  apply NoDup_app in Hnd as (_ & Hdisj & [Hxpost _]%NoDup_cons).
  apply elem_of_app in Ha as [Ha|Ha]; [|done]. apply (Hdisj x Ha). set_solver.
Qed.

(** X17. After a node is removed, [LinkedListPrint] on a node that is
    left prints the payloads of the other nodes, in their order, without
    the payload of the node removed. *)
Theorem LinkedListRemove_then_Print
    (s : state) (pre : list Z) (x : Z) (post : list Z) (y : Z) (fuel : nat) :
  chain (items s) (pre ++ x :: post) →
  Forall (valid_string (strings s)) (datas (items s) (pre ++ post)) →
  y ∈ pre ++ post →
  (length (pre ++ post) < fuel)%nat →
  ∃ s', (LinkedListRemove x;; LinkedListPrint fuel y) s = Ok SUCCESS s'
    ∧ stdout s' = (stdout s ++ listing (payloads s (pre ++ post)))%string.
Proof.
  intros Hc Hv Hy Hfuel.
  destruct (LinkedListRemove_datas _ _ _ _ Hc) as (s1 & Hrun & Hc1 & Hd1 & Hstr & Hout).
  assert (payloads s1 (pre ++ post) = payloads s (pre ++ post)) as Hp
    by (unfold payloads; by rewrite Hd1, Hstr).
  rewrite <-Hd1, <-Hstr in Hv. rewrite <-Hp, <-Hout.
  apply list_elem_of_split in Hy as (l1 & l2 & Hl). rewrite Hl in *.
  eexists. split.
  { rewrite (bind_Ok _ _ _ _ _ Hrun).
    by apply (LinkedListPrint_run s1 l1 y l2 fuel). }
  reflexivity.
Qed.

(** X18. After a node is inserted behind [A], [LinkedListPrint] prints
    the payloads of the chain with the new payload right after the
    payload of [A]. *)
Theorem LinkedListCreateAfter_then_Print
    (s : state) (pre post : list Z) (A B payload : Z) (g : ListItem)
    (y : Z) (fuel : nat) :
  chain (items s) (pre ++ A :: post) →
  B ≠ NULL → items s !! B = None →
  Forall (valid_string (strings s)) (datas (items s) (pre ++ A :: post)) →
  valid_string (strings s) payload →
  y ∈ pre ++ A :: B :: post →
  (S (length (pre ++ A :: post)) < fuel)%nat →
  ∃ s', (LinkedListCreateAfter (Some (B, g)) A payload;; LinkedListPrint fuel y) s
        = Ok SUCCESS s'
    ∧ stdout s'
      = (stdout s
         ++ listing (payloads s (pre ++ [A])
                     ++ payload_of (strings s) payload :: payloads s post))%string.
Proof.
  intros Hc HB HBfree Hv Hpay Hy Hfuel.
  destruct (chain_node _ _ _ _ Hc) as (HA & dA & HitA).
  destruct (LinkedListCreateAfter_run s pre A post B g payload Hc HB HBfree)
    as (s1 & Hrun & HiB & HiA & HiC & Hsame & Hstr & Hout).
  pose proof (chain_insert _ _ _ _ _ _ _ Hc HB HBfree HiB HiA HiC Hsame) as Hc1.
  assert (∀ a, a ∈ pre ++ A :: post → data_at (items s1) a = data_at (items s) a)
    as Hdata.
  { intros a Ha. unfold data_at.
    assert (a ≠ B) as HaB.
    { intros ->. destruct (chain_allocated _ _ _ Hc Ha) as [_ [? ?]]. congruence. }
    destruct (decide (a = A)) as [->|HaA]; [by rewrite (HiA _ HitA), HitA|].
    destruct (decide (head post = Some a)) as [Hh|Hh]; [|by rewrite Hsame].
    pose proof Hh as [post' ->]%head_Some.
    destruct (chain_after _ _ _ _ _ Hc) as (_ & _ & _ & dC & HitC).
    by rewrite (HiC a _ Hh HitC), HitC. }
  assert (datas (items s1) (pre ++ A :: B :: post)
          = datas (items s) (pre ++ [A]) ++ payload :: datas (items s) post) as Hd1.
  { replace (pre ++ A :: B :: post) with ((pre ++ [A]) ++ B :: post)
      by (by rewrite <-app_assoc).
    rewrite datas_app. f_equal.
    - apply list_fmap_ext. intros i a Ha%list_elem_of_lookup_2.
      apply Hdata. set_solver.
    - change (datas (items s1) (B :: post))
        with (data_at (items s1) B :: datas (items s1) post).
      f_equal; [unfold data_at; by rewrite HiB|].
      apply list_fmap_ext. intros i a Ha%list_elem_of_lookup_2.
      apply Hdata. set_solver. }
  assert (payloads s1 (pre ++ A :: B :: post)
          = payloads s (pre ++ [A])
            ++ payload_of (strings s) payload :: payloads s post) as Hp.
  { unfold payloads. by rewrite Hd1, Hstr, fmap_app. }
  assert (Forall (valid_string (strings s1)) (datas (items s1) (pre ++ A :: B :: post)))
    as Hv1.
  { rewrite Hd1, Hstr. replace (pre ++ A :: post) with ((pre ++ [A]) ++ post) in Hv
      by (by rewrite <-app_assoc).
    rewrite datas_app in Hv. apply Forall_app in Hv as [Hv1 Hv2].
    apply Forall_app. split; [done|]. by apply Forall_cons. }
  rewrite <-Hp, <-Hout.
  apply list_elem_of_split in Hy as (l1 & l2 & Hl).
  assert (length (pre ++ A :: B :: post) < fuel)%nat as Hfuel1
    by (rewrite !length_app in *; simpl in *; lia).
  rewrite Hl in *.
  eexists. split.
  { rewrite (bind_Ok _ _ _ _ _ Hrun).
    by apply (LinkedListPrint_run s1 l1 y l2 fuel). }
  reflexivity.
Qed.

(** ** The further properties on the chain of animals *)

Lemma LinkedListGetFirst_head_animals :
  ∃ h, head ([16; 32; 48] ++ 64 :: [80]) = Some h
    ∧ LinkedListGetFirst 4 64 animals = Ok h animals
    ∧ previousItem <$> items animals !! h = Some NULL
    ∧ LinkedListGetFirst 4 h animals = Ok h animals.
Proof.
  apply (LinkedListGetFirst_head animals [16; 32; 48] 64 [80] 4);
    [evaluate|simpl; lia].
Defined.

Lemma LinkedListSize_counts_chain_animals :
  LinkedListSize 6 48 animals
  = Ok (Z.of_nat (length ([16; 32] ++ 48 :: [64; 80]))) animals
  ∧ ∀ y, y ∈ [16; 32] ++ 48 :: [64; 80] →
      LinkedListSize 6 y animals = LinkedListSize 6 48 animals.
Proof.
  apply (LinkedListSize_counts_chain animals [16; 32] 48 [64; 80] 6);
    [evaluate|simpl; lia|by vm_compute].
Defined.

Lemma LinkedListSwapData_twice_animals :
  (LinkedListSwapData 16 80;; LinkedListSwapData 16 80) animals = Ok SUCCESS animals.
Proof.
  apply (LinkedListSwapData_twice 16 80
           (mkListItem NULL 32 1000) (mkListItem 64 NULL NULL) animals);
    [unfold NULL; lia|unfold NULL; lia|vm_compute; reflexivity|vm_compute; reflexivity].
Defined.

Lemma LinkedListRemove_frame_animals :
  ∃ s', LinkedListRemove 48 animals = Ok (data_at (items animals) 48) s'
    ∧ (∀ a, a ≠ 48 → data <$> items s' !! a = data <$> items animals !! a)
    ∧ (∀ a, a ≠ 48 → last [16; 32] ≠ Some a → head [64; 80] ≠ Some a →
         items s' !! a = items animals !! a)
    ∧ (∀ P, last [16; 32] = Some P →
         previousItem <$> items s' !! P = previousItem <$> items animals !! P)
    ∧ (∀ N, head [64; 80] = Some N →
         nextItem <$> items s' !! N = nextItem <$> items animals !! N)
    ∧ strings s' = strings animals ∧ stdout s' = stdout animals.
Proof.
  apply (LinkedListRemove_frame animals [16; 32] 48 [64; 80]). evaluate.
Defined.

Lemma LinkedListCreateAfter_then_Remove_animals :
  (let* new := LinkedListCreateAfter (Some (96, mkListItem 16 32 0)) 48 1004 in
   LinkedListRemove new) animals
  = Ok 1004 animals.
Proof.
  apply (LinkedListCreateAfter_then_Remove animals [16; 32] [64; 80] 48 96 1004
           (mkListItem 16 32 0));
    [evaluate|unfold NULL; lia|vm_compute; reflexivity].
Defined.

Lemma LinkedListSize_after_CreateAfter_animals :
  ∃ n s', LinkedListSize 7 48 animals = Ok n animals
    ∧ LinkedListCreateAfter (Some (96, mkListItem 16 32 0)) 48 1004 animals = Ok 96 s'
    ∧ ∀ y, y ∈ [16; 32] ++ 48 :: 96 :: [64; 80] →
        LinkedListSize 7 y s' = Ok (n + 1) s'.
Proof.
  apply (LinkedListSize_after_CreateAfter animals [16; 32] [64; 80] 48 96 1004
           (mkListItem 16 32 0) 7);
    [evaluate|unfold NULL; lia|vm_compute; reflexivity|simpl; lia|by vm_compute].
Defined.

Lemma LinkedListSize_after_Remove_animals :
  ∃ n d s', LinkedListSize 6 48 animals = Ok n animals
    ∧ LinkedListRemove 48 animals = Ok d s'
    ∧ ∀ y, y ∈ [16; 32] ++ [64; 80] → LinkedListSize 6 y s' = Ok (n - 1) s'.
Proof.
  apply (LinkedListSize_after_Remove animals [16; 32] 48 [64; 80] 6);
    [evaluate|simpl; lia|by vm_compute].
Defined.

Lemma LinkedListGetFirst_after_Remove_animals :
  ∃ d s', LinkedListRemove 16 animals = Ok d s'
    ∧ ∀ y h, y ∈ [] ++ [32; 48; 64; 80] → head ([] ++ [32; 48; 64; 80]) = Some h →
        LinkedListGetFirst 5 y s' = Ok h s'.
Proof.
  apply (LinkedListGetFirst_after_Remove animals [] 16 [32; 48; 64; 80] 5);
    [evaluate|simpl; lia].
Defined.

Lemma LinkedListSort_NULL_first_animals :
  ∃ s', LinkedListSort 4 32 animals = Ok SUCCESS s'
    ∧ StronglySorted null_first (payloads s' (32 :: [48; 64; 80])).
Proof.
  apply (LinkedListSort_NULL_first animals [16] 32 [48; 64; 80] 4);
    [evaluate|evaluate|simpl; lia].
Defined.

Lemma LinkedListSort_twice_animals :
  ∃ s1, LinkedListSort 5 16 animals = Ok SUCCESS s1
    ∧ (LinkedListSort 5 16;; LinkedListSort 5 16) animals = Ok SUCCESS s1.
Proof.
  apply (LinkedListSort_twice animals [] 16 [32; 48; 64; 80] 5);
    [evaluate|evaluate|simpl; lia].
Defined.

Lemma LinkedListSort_last_node_animals :
  LinkedListSort 1 80 animals = Ok SUCCESS animals.
Proof.
  apply (LinkedListSort_last_node animals [16; 32; 48; 64] 80 1);
    [evaluate|lia].
Defined.

Lemma LinkedListSort_then_Print_animals :
  ∃ s', (LinkedListSort 6 16;; LinkedListPrint 6 64) animals = Ok SUCCESS s'
    ∧ stdout s'
      = (stdout animals
         ++ listing (sort_seq id (payloads animals (16 :: [32; 48; 64; 80]))))%string
    ∧ StronglySorted ascending
        (sort_seq id (payloads animals (16 :: [32; 48; 64; 80]))).
Proof.
  apply (LinkedListSort_then_Print animals 16 [32; 48; 64; 80] 64 6);
    [evaluate|evaluate|evaluate|simpl; lia].
Defined.

Lemma LinkedListNew_zeroed_block_animals :
  ∃ s', LinkedListNew (Some (96, mkListItem NULL NULL 7)) 1004 animals = Ok 96 s'
    ∧ items s' !! 96 = Some (mkListItem NULL NULL 1004)
    ∧ chain (items s') [96]
    ∧ (∀ a, a ≠ 96 → items s' !! a = items animals !! a)
    ∧ (∀ l, chain (items animals) l → chain (items s') l)
    ∧ strings s' = strings animals ∧ stdout s' = stdout animals.
Proof.
  apply (LinkedListNew_zeroed_block animals 96 7 1004);
    [unfold NULL; lia|vm_compute; reflexivity].
Defined.

Lemma LinkedListNew_then_CreateAfter_animals :
  ∃ s', (let* first := LinkedListNew (Some (96, mkListItem NULL NULL 7)) 1004 in
         LinkedListCreateAfter (Some (112, mkListItem 16 32 0)) first 1000) animals
        = Ok 112 s'
    ∧ chain (items s') [96; 112]
    ∧ datas (items s') [96; 112] = [1004; 1000].
Proof.
  apply (LinkedListNew_then_CreateAfter animals 96 112 7 1004 1000 (mkListItem 16 32 0));
    [unfold NULL; lia|unfold NULL; lia|lia
    |vm_compute; reflexivity|vm_compute; reflexivity].
Defined.

Lemma LinkedListNew_never_NULL_animals :
  96 ≠ NULL ∧ ∃ g, Some (96, mkListItem 16 32 0) = Some (96, g).
Proof.
  eapply (proj1 (LinkedListNew_never_NULL
                   (Some (96, mkListItem 16 32 0)) 48 1004 96 animals _)).
  vm_compute. reflexivity.
Defined.

Lemma LinkedListRemove_then_Print_animals :
  ∃ s', (LinkedListRemove 48;; LinkedListPrint 5 80) animals = Ok SUCCESS s'
    ∧ stdout s'
      = (stdout animals ++ listing (payloads animals ([16; 32] ++ [64; 80])))%string.
Proof.
  apply (LinkedListRemove_then_Print animals [16; 32] 48 [64; 80] 80 5);
    [evaluate|evaluate|evaluate|simpl; lia].
Defined.

Lemma LinkedListCreateAfter_then_Print_animals :
  ∃ s', (LinkedListCreateAfter (Some (96, mkListItem 16 32 0)) 48 1004;;
         LinkedListPrint 7 96) animals
        = Ok SUCCESS s'
    ∧ stdout s'
      = (stdout animals
         ++ listing (payloads animals ([16; 32] ++ [48])
                     ++ payload_of (strings animals) 1004
                        :: payloads animals [64; 80]))%string.
Proof.
  apply (LinkedListCreateAfter_then_Print animals [16; 32] [64; 80] 48 96 1004
           (mkListItem 16 32 0) 96 7);
    [evaluate|unfold NULL; lia|vm_compute; reflexivity|evaluate|evaluate
    |evaluate|simpl; lia].
Defined.
